(** * gorilla/appengine/datastore: keys, their encoding, and query descriptors

    A shallow embedding of [key.go] and [query.go] of the datastore package,
    together with the parts of the Go runtime and libraries they rest on
    (string trimming, URL-safe base64, the protocol-buffer wire format of
    [Reference], slices with shared backing arrays). *)

From Stdlib Require Import ZArith NArith Ascii String DecimalString List Bool Lia.
From stdpp Require Import base list strings.

Local Open Scope string_scope.
Local Open Scope Z_scope.

(* ================================================================== *)
(** * Part I: definitions *)
(* ================================================================== *)

(** ** Go strings

    A Go [string] is a sequence of bytes: it is modelled by [string], whose
    characters are the 256 values of [ascii]; a [[]byte] is a [list ascii]. *)

Module GoStr.

Definition bytes := list ascii.

Definition of_bytes (b : bytes) : string := string_of_list_ascii b.
Definition to_bytes (s : string) : bytes := list_ascii_of_string s.

(** [unicode.IsSpace] on the one-byte code points: tab, line feed, vertical
    tab, form feed, carriage return and space.  (The two-byte UTF-8 spaces
    U+0085 and U+00A0 are outside this model: texts are taken as ASCII.) *)
Definition isSpace (c : ascii) : bool :=
  let n := N_of_ascii c in
  (N.leb 9 n && N.leb n 13) || N.eqb n 32.

(** Membership of a byte in a cutset, the second argument of
    [strings.TrimRight]. *)
Fixpoint inCutset (cutset : string) (c : ascii) : bool :=
  match cutset with
  | EmptyString => false
  | String d rest => Ascii.eqb c d || inCutset rest c
  end.

Fixpoint trimLeft (cut : ascii -> bool) (s : bytes) : bytes :=
  match s with
  | [] => []
  | c :: r => if cut c then trimLeft cut r else s
  end.

Fixpoint trimRight (cut : ascii -> bool) (s : bytes) : bytes :=
  match s with
  | [] => []
  | c :: r =>
      match trimRight cut r with
      | [] => if cut c then [] else [c]
      | r' => c :: r'
      end
  end.

(** [strings.TrimRight(s, cutset)] *)
Definition TrimRight (s cutset : string) : string :=
  of_bytes (trimRight (inCutset cutset) (to_bytes s)).

(** [strings.TrimSpace(s)], for a text of ASCII: the white space that it
    trims is the one of [isSpace]. *)
Definition TrimSpace (s : string) : string :=
  of_bytes (trimRight isSpace (trimLeft isSpace (to_bytes s))).

(** [strings.HasPrefix(s, prefix)] *)
Definition HasPrefix (s prefix : string) : bool := String.prefix prefix s.

(** [strings.Repeat(s, n)] *)
Fixpoint Repeat (s : string) (n : nat) : string :=
  match n with
  | O => EmptyString
  | S n' => String.append s (Repeat s n')
  end.

(** The slice expression [s[n:]]. *)
Definition from (n : nat) (s : string) : string :=
  of_bytes (drop n (to_bytes s)).

(** [strconv.Itoa64]: the decimal text of an integer. *)
Definition Itoa64 (i : Z) : string := NilZero.string_of_int (Z.to_int i).

End GoStr.

(** ** Errors

    [os.Error] values.  [None] of type [option Err] is the nil error. *)

Inductive Err : Type :=
| ErrInvalidKey
| NewError (msg : string)
| ErrInvalidOperator (operator filter : string)
| ErrBadFilterValue (errStr : string)
| CorruptInputError
| ErrProto (msg : string).

Abbreviation error := (option Err).

(** [ErrMulti] is a slice of errors; a slot may be nil. *)
Abbreviation ErrMulti := (list (option Err)).

(** ** Key (key.go) *)

#[warnings="-register-all"]
Inductive Key : Type := mkKey {
  appID : string;
  namespace : string;
  parent : option Key;
  kind : string;
  stringID : string;
  intID : Z
}.

(** [intID] is an [int64]. *)
Definition int64_min : Z := - 2 ^ 63.
Definition int64_max : Z := 2 ^ 63 - 1.

Fixpoint int64_chain (k : Key) : Prop :=
  match k with
  | mkKey _ _ p _ _ i =>
      (int64_min <= i <= int64_max) /\
      match p with Some p' => int64_chain p' | None => True end
  end.

(** The number of levels of the ancestor chain, the key itself included. *)
Fixpoint depth (k : Key) : nat :=
  match k with
  | mkKey _ _ p _ _ _ => S (match p with Some p' => depth p' | None => O end)
  end.

Definition isEmpty (s : string) : bool := String.eqb s "".

(** [func (k *Key) Incomplete() bool] *)
Definition Incomplete (k : Key) : bool :=
  isEmpty (stringID k) && Z.eqb (intID k) 0.

(** The loop of [valid], entered with a non-nil key. *)
Fixpoint valid_loop (k : Key) : bool :=
  match k with
  | mkKey app ns p kd sid iid =>
      if isEmpty kd || isEmpty app then false
      else if negb (isEmpty sid) && negb (Z.eqb iid 0) then false
      else match p with
           | Some p' =>
               if Incomplete p' then false
               else if negb (String.eqb (appID p') app) then false
               else if negb (String.eqb (namespace p') ns) then false
               else valid_loop p'
           | None => true
           end
  end.

(** [func (k *Key) valid() bool] *)
Definition valid (k : option Key) : bool :=
  match k with
  | None => false
  | Some k' => valid_loop k'
  end.

(** The test of the loop body of [Eq]: some field of the two nodes differs. *)
Definition differ (k o : Key) : bool :=
  negb (String.eqb (kind k) (kind o))
  || negb (String.eqb (stringID k) (stringID o))
  || negb (Z.eqb (intID k) (intID o))
  || negb (String.eqb (namespace k) (namespace o))
  || negb (String.eqb (appID k) (appID o)).

Fixpoint Eq_loop (k o : Key) {struct k} : bool :=
  match k, o with
  | mkKey _ _ pk _ _ _, mkKey _ _ po _ _ _ =>
      if differ k o then false
      else match pk, po with
           | Some k', Some o' => Eq_loop k' o'
           | None, None => true
           | _, _ => false
           end
  end.

(** [func (k *Key) Eq(o *Key) bool]: the loop runs while both are non-nil,
    and the final [k == o] compares what is left, of which one is nil. *)
Definition Eq (k o : option Key) : bool :=
  match k, o with
  | Some k', Some o' => Eq_loop k' o'
  | None, None => true
  | _, _ => false
  end.

(** [func (k *Key) Equal(o *Key) bool] of the refined key implementation:
    the same loop, with the last two comparisons in the other order. *)
Definition differ' (k o : Key) : bool :=
  negb (String.eqb (kind k) (kind o))
  || negb (String.eqb (stringID k) (stringID o))
  || negb (Z.eqb (intID k) (intID o))
  || negb (String.eqb (appID k) (appID o))
  || negb (String.eqb (namespace k) (namespace o)).

Fixpoint Equal_loop (k o : Key) {struct k} : bool :=
  match k, o with
  | mkKey _ _ pk _ _ _, mkKey _ _ po _ _ _ =>
      if differ' k o then false
      else match pk, po with
           | Some k', Some o' => Equal_loop k' o'
           | None, None => true
           | _, _ => false
           end
  end.

Definition Equal (k o : option Key) : bool :=
  match k, o with
  | Some k', Some o' => Equal_loop k' o'
  | None, None => true
  | _, _ => false
  end.

(** The second loop of [multiValid]: slot [i] of [err] is assigned when key
    [i] is not valid. *)
Fixpoint multiValid_fill (key : list (option Key)) (i : nat) (err : ErrMulti) : ErrMulti :=
  match key with
  | [] => err
  | k :: rest =>
      let err' := if negb (valid k) then <[i := Some ErrInvalidKey]> err else err in
      multiValid_fill rest (S i) err'
  end.

(** [func multiValid(key []*Key) os.Error]: a first loop looks for a key that
    is not valid; when there is one, [make(ErrMulti, len(key))] gives a slice
    of nil errors, which the second loop fills. *)
Definition multiValid (key : list (option Key)) : option ErrMulti :=
  let invalid := existsb (fun k => negb (valid k)) key in
  if negb invalid then None
  else Some (multiValid_fill key 0 (replicate (length key) None)).

(** ** URL-safe base64 ([encoding/base64], RFC 4648 section 5)

    Three input bytes are read as four groups of six bits; a final group of
    one or two bytes is padded with zero bits and the text with '='. *)

Module base64.

(** Six bits, the most significant first. *)
Definition sextet : Type := (bool * bool * bool * bool * bool * bool)%type.

Definition encodeURL : string :=
  "ABCDEFGHIJKLMNOPQRSTUVWXYZabcdefghijklmnopqrstuvwxyz0123456789-_".

Definition pad : ascii := "="%char.

Definition index_of (s : sextet) : nat :=
  let '(a, b, c, d, e, f) := s in
  let w (x : bool) (n : nat) : nat := if x then n else O in
  (w a 32 + w b 16 + w c 8 + w d 4 + w e 2 + w f 1)%nat.

Definition of_index (n : nat) : sextet :=
  let t (i : N) := N.testbit (N.of_nat n) i in
  (t 5%N, t 4%N, t 3%N, t 2%N, t 1%N, t 0%N).

(** [enc.encode[i]] *)
Definition encodeChar (s : sextet) : ascii :=
  nth (index_of s) (list_ascii_of_string encodeURL) "A"%char.

Fixpoint find_index (c : ascii) (l : list ascii) (i : nat) : option nat :=
  match l with
  | [] => None
  | d :: r => if Ascii.eqb c d then Some i else find_index c r (S i)
  end.

(** [enc.decodeMap[c]], with [None] for the 0xFF entries. *)
Definition decodeChar (c : ascii) : option sextet :=
  match find_index c (list_ascii_of_string encodeURL) O with
  | Some i => Some (of_index i)
  | None => None
  end.

(** The 24 bits of three bytes as four sextets.  [Ascii] lists the bits of a
    byte from the least significant. *)
Definition split3 (x y z : ascii) : sextet * sextet * sextet * sextet :=
  let '(Ascii x0 x1 x2 x3 x4 x5 x6 x7) := x in
  let '(Ascii y0 y1 y2 y3 y4 y5 y6 y7) := y in
  let '(Ascii z0 z1 z2 z3 z4 z5 z6 z7) := z in
  ((x7, x6, x5, x4, x3, x2), (x1, x0, y7, y6, y5, y4),
   (y3, y2, y1, y0, z7, z6), (z5, z4, z3, z2, z1, z0)).

Definition join4 (a b c d : sextet) : ascii * ascii * ascii :=
  let '(a5, a4, a3, a2, a1, a0) := a in
  let '(b5, b4, b3, b2, b1, b0) := b in
  let '(c5, c4, c3, c2, c1, c0) := c in
  let '(d5, d4, d3, d2, d1, d0) := d in
  (Ascii b4 b5 a0 a1 a2 a3 a4 a5,
   Ascii c2 c3 c4 c5 b0 b1 b2 b3,
   Ascii d0 d1 d2 d3 d4 d5 c0 c1).

(** [URLEncoding.EncodeToString] *)
Fixpoint EncodeToString (src : GoStr.bytes) : GoStr.bytes :=
  match src with
  | [] => []
  | [x] =>
      let '(a, b, _, _) := split3 x zero zero in
      [encodeChar a; encodeChar b; pad; pad]
  | [x; y] =>
      let '(a, b, c, _) := split3 x y zero in
      [encodeChar a; encodeChar b; encodeChar c; pad]
  | x :: y :: z :: rest =>
      let '(a, b, c, d) := split3 x y z in
      encodeChar a :: encodeChar b :: encodeChar c :: encodeChar d
        :: EncodeToString rest
  end.

(** One quantum of four characters; [dlen] is the number of characters before
    the padding (2, 3 or 4). *)
Definition quantum (a b c d : ascii) (dlen : nat) : option GoStr.bytes :=
  match decodeChar a, decodeChar b with
  | Some sa, Some sb =>
      match dlen with
      | 2%nat => let '(x, _, _) := join4 sa sb (of_index 0) (of_index 0) in Some [x]
      | 3%nat =>
          match decodeChar c with
          | Some sc => let '(x, y, _) := join4 sa sb sc (of_index 0) in Some [x; y]
          | None => None
          end
      | _ =>
          match decodeChar c, decodeChar d with
          | Some sc, Some sd => let '(x, y, z) := join4 sa sb sc sd in Some [x; y; z]
          | _, _ => None
          end
      end
  | _, _ => None
  end.

(** [URLEncoding.DecodeString]: the length is a multiple of four, and padding
    stands in the last quantum only; [None] is a [CorruptInputError]. *)
Fixpoint DecodeString (src : GoStr.bytes) : option GoStr.bytes :=
  match src with
  | [] => Some []
  | [a; b; c; d] =>
      if Ascii.eqb c pad then
        if Ascii.eqb d pad then quantum a b c d 2 else None
      else if Ascii.eqb d pad then quantum a b c d 3
      else quantum a b c d 4
  | a :: b :: c :: d :: rest =>
      match quantum a b c d 4, DecodeString rest with
      | Some q, Some r => Some (q ++ r)%list
      | _, _ => None
      end
  | _ => None
  end.

End base64.

(** ** The protocol-buffer wire format ([goprotobuf/proto])

    A message is a sequence of fields, each a key (field number and wire
    type, as a base-128 varint) followed by its payload.  This model has the
    wire types the [Reference] message uses: varint (0), length-delimited (2)
    and the start and end of a group (3, 4); a field of another wire type is
    a decoding error here. *)

Module proto.

Inductive field : Type :=
| Varint (num : N) (v : N)
| Bytes (num : N) (b : GoStr.bytes)
| StartGroup (num : N)
| EndGroup (num : N).

(** A base-128 varint: seven bits to a byte, the least significant group
    first, the top bit of a byte telling that more follow.  The number of
    binary digits of [n] bounds the number of bytes; a 64-bit value takes at
    most ten. *)
Fixpoint put_varint (fuel : nat) (n : N) : GoStr.bytes :=
  match fuel with
  | O => []
  | S f =>
      if (n <? 128)%N then [ascii_of_N n]
      else ascii_of_N (128 + n mod 128) :: put_varint f (n / 128)
  end.

(** [proto.EncodeVarint] *)
Definition EncodeVarint (n : N) : GoStr.bytes :=
  put_varint (S (N.to_nat (N.size n))) n.

(** [proto.DecodeVarint], with what is left of the input. *)
Fixpoint DecodeVarint (src : GoStr.bytes) : option (N * GoStr.bytes) :=
  match src with
  | [] => None
  | c :: rest =>
      let b := N_of_ascii c in
      if (b <? 128)%N then Some (b, rest)
      else match DecodeVarint rest with
           | Some (v, rest') => Some ((b - 128) + 128 * v, rest')%N
           | None => None
           end
  end.

Definition key (num wiretype : N) : GoStr.bytes := EncodeVarint (num * 8 + wiretype).

Definition encode_field (f : field) : GoStr.bytes :=
  match f with
  | Varint num v => (key num 0 ++ EncodeVarint v)%list
  | Bytes num b => (key num 2 ++ EncodeVarint (N.of_nat (length b)) ++ b)%list
  | StartGroup num => key num 3
  | EndGroup num => key num 4
  end.

Definition encode_fields (fs : list field) : GoStr.bytes :=
  concat (map encode_field fs).

(** Reading the fields of a buffer back; every field takes at least one byte,
    so [fuel] as large as the buffer is long is enough. *)
Fixpoint decode_fields (fuel : nat) (src : GoStr.bytes) : option (list field) :=
  match src with
  | [] => Some []
  | _ :: _ =>
      match fuel with
      | O => None
      | S fuel' =>
          match DecodeVarint src with
          | None => None
          | Some (k, rest) =>
              let num := (k / 8)%N in
              match (k mod 8)%N with
              | 0%N =>
                  match DecodeVarint rest with
                  | Some (v, rest') =>
                      option_map (cons (Varint num v)) (decode_fields fuel' rest')
                  | None => None
                  end
              | 2%N =>
                  match DecodeVarint rest with
                  | Some (n, rest') =>
                      let n' := N.to_nat n in
                      if (n' <=? length rest')%nat then
                        option_map (cons (Bytes num (take n' rest')))
                                   (decode_fields fuel' (drop n' rest'))
                      else None
                  | None => None
                  end
              | 3%N => option_map (cons (StartGroup num)) (decode_fields fuel' rest)
              | 4%N => option_map (cons (EndGroup num)) (decode_fields fuel' rest)
              | _ => None
              end
          end
      end
  end.

Definition parse (src : GoStr.bytes) : option (list field) :=
  decode_fields (length src) src.

(** An [int64] on the wire is its two's complement [uint64]. *)
Definition uint64_of_int64 (i : Z) : N := Z.to_N (i mod 2 ^ 64).

Definition int64_of_uint64 (v : N) : Z :=
  let z := (Z.of_N v) mod 2 ^ 64 in
  if z <? 2 ^ 63 then z else z - 2 ^ 64.

(** [proto.GetString] and [proto.GetInt64]: the zero value for a nil pointer. *)
Definition GetString (p : option string) : string := default "" p.
Definition GetInt64 (p : option Z) : Z := default 0 p.

End proto.

(** ** The wire messages ([appengine_internal/datastore])

    [Reference] is [{ required string app = 13; optional string name_space =
    20; required Path path = 14 }]; [Path] is a repeated group [Element = 1]
    of [{ required string type = 2; optional int64 id = 3; optional string
    name = 4 }].  An optional field is a pointer, nil when it is not set.
    [Unmarshal] takes the fields in any order and refuses a field that the
    message does not declare (goprotobuf would set it aside). *)

Module pb.

Record Path_Element : Type := mkElement {
  Type_ : option string;
  Id : option Z;
  Name : option string
}.

Record Path : Type := mkPath { Element : list Path_Element }.

Record Reference : Type := mkReference {
  App : option string;
  NameSpace : option string;
  Path_ : Path
}.

Definition fields_of_Element (e : Path_Element) : option (list proto.field) :=
  match Type_ e with
  | None => None
  | Some t =>
      Some ([proto.StartGroup 1; proto.Bytes 2 (GoStr.to_bytes t)]
            ++ match Id e with
               | Some i => [proto.Varint 3 (proto.uint64_of_int64 i)]
               | None => []
               end
            ++ match Name e with
               | Some n => [proto.Bytes 4 (GoStr.to_bytes n)]
               | None => []
               end
            ++ [proto.EndGroup 1])%list
  end.

Fixpoint fields_of_Path (es : list Path_Element) : option (list proto.field) :=
  match es with
  | [] => Some []
  | e :: es' =>
      match fields_of_Element e, fields_of_Path es' with
      | Some f, Some fs => Some (f ++ fs)%list
      | _, _ => None
      end
  end.

(** [proto.Marshal] of a [Reference], fields in the order of their numbers;
    [None] is the error of a required field that is not set. *)
Definition Marshal (r : Reference) : option GoStr.bytes :=
  match App r, fields_of_Path (Element (Path_ r)) with
  | Some app, Some path =>
      Some (proto.encode_fields
              ([proto.Bytes 13 (GoStr.to_bytes app);
                proto.Bytes 14 (proto.encode_fields path)]
               ++ match NameSpace r with
                  | Some ns => [proto.Bytes 20 (GoStr.to_bytes ns)]
                  | None => []
                  end)%list)
  | _, _ => None
  end.

(** The elements of a [Path] from its fields; [cur] is the group being read. *)
Fixpoint Path_of_fields (fs : list proto.field) (cur : option Path_Element)
  : option (list Path_Element) :=
  match fs with
  | [] => match cur with None => Some [] | Some _ => None end
  | f :: rest =>
      match cur, f with
      | None, proto.StartGroup 1%N =>
          Path_of_fields rest (Some (mkElement None None None))
      | Some e, proto.Bytes 2%N b =>
          Path_of_fields rest (Some (mkElement (Some (GoStr.of_bytes b)) (Id e) (Name e)))
      | Some e, proto.Varint 3%N v =>
          Path_of_fields rest
            (Some (mkElement (Type_ e) (Some (proto.int64_of_uint64 v)) (Name e)))
      | Some e, proto.Bytes 4%N b =>
          Path_of_fields rest (Some (mkElement (Type_ e) (Id e) (Some (GoStr.of_bytes b))))
      | Some e, proto.EndGroup 1%N =>
          match Type_ e with
          | Some _ => option_map (cons e) (Path_of_fields rest None)
          | None => None
          end
      | _, _ => None
      end
  end.

(** The fields of a [Reference] read into the message [r]; [path] tells
    whether the required field [path] was seen. *)
Fixpoint Reference_of_fields (fs : list proto.field) (r : Reference) (path : bool)
  : option Reference :=
  match fs with
  | [] => match App r with
          | Some _ => if path then Some r else None
          | None => None
          end
  | f :: rest =>
      match f with
      | proto.Bytes 13%N b =>
          Reference_of_fields rest
            (mkReference (Some (GoStr.of_bytes b)) (NameSpace r) (Path_ r)) path
      | proto.Bytes 20%N b =>
          Reference_of_fields rest
            (mkReference (App r) (Some (GoStr.of_bytes b)) (Path_ r)) path
      | proto.Bytes 14%N b =>
          match proto.parse b with
          | Some pf =>
              match Path_of_fields pf None with
              | Some es =>
                  Reference_of_fields rest
                    (mkReference (App r) (NameSpace r)
                                 (mkPath (Element (Path_ r) ++ es)%list)) true
              | None => None
              end
          | None => None
          end
      | _ => None
      end
  end.

(** [proto.Unmarshal] into a new [Reference]. *)
Definition Unmarshal (b : GoStr.bytes) : option Reference :=
  match proto.parse b with
  | Some fs => Reference_of_fields fs (mkReference None None (mkPath [])) false
  | None => None
  end.

End pb.

(** ** Keys and the wire ([key.go], continued) *)

(** The path element of one level: at most one of [Name] and [Id] is set,
    and neither for an incomplete key. *)
Definition element_of (i : Key) : pb.Path_Element :=
  pb.mkElement (Some (kind i))
    (if negb (isEmpty (stringID i)) then None
     else if negb (Z.eqb (intID i) 0) then Some (intID i) else None)
    (if negb (isEmpty (stringID i)) then Some (stringID i) else None).

(** The second loop of [keyToProto]: it walks from the key to the root,
    [n] going down, and assigns [e[n]]. *)
Fixpoint keyToProto_fill (i : Key) (n : nat) (e : list pb.Path_Element)
  : list pb.Path_Element :=
  match i with
  | mkKey _ _ p _ _ _ =>
      let n' := (n - 1)%nat in
      let e' := <[n' := element_of i]> e in
      match p with
      | Some p' => keyToProto_fill p' n' e'
      | None => e'
      end
  end.

(** [func keyToProto(k *Key) *pb.Reference]: the first loop counts the
    levels, [make] gives the array of that length (its slots, nil pointers
    in the code, are elements without fields here until they are assigned). *)
Definition keyToProto (k : Key) : pb.Reference :=
  let namespace_ := if negb (isEmpty (namespace k)) then Some (namespace k) else None in
  let n := depth k in
  let e := replicate n (pb.mkElement None None None) in
  pb.mkReference (Some (appID k)) namespace_ (pb.mkPath (keyToProto_fill k n e)).

(** The loop of [protoToKey] over the path elements, [k] being the key built
    so far. *)
Fixpoint protoToKey_loop (appID_ namespace_ : string) (es : list pb.Path_Element)
  (k : option Key) : option Key * error :=
  match es with
  | [] => (k, None)
  | e :: es' =>
      let k' := mkKey appID_ namespace_ k
                  (proto.GetString (pb.Type_ e))
                  (proto.GetString (pb.Name e))
                  (proto.GetInt64 (pb.Id e)) in
      if negb (valid (Some k')) then (None, Some ErrInvalidKey)
      else protoToKey_loop appID_ namespace_ es' (Some k')
  end.

(** [func protoToKey(r *pb.Reference) (k *Key, err os.Error)] *)
Definition protoToKey (r : pb.Reference) : option Key * error :=
  protoToKey_loop (proto.GetString (pb.App r)) (proto.GetString (pb.NameSpace r))
    (pb.Element (pb.Path_ r)) None.

(** [func (k *Key) Encode() string]; [None] is the panic on a [Marshal]
    error. *)
Definition Encode (k : Key) : option string :=
  match pb.Marshal (keyToProto k) with
  | None => None
  | Some b => Some (GoStr.TrimRight (GoStr.of_bytes (base64.EncodeToString b)) "=")
  end.

(** The first lines of [DecodeKey]: the padding is added again. *)
Definition repad (encoded : string) : string :=
  let m := (String.length encoded mod 4)%nat in
  if negb (m =? 0)%nat then String.append encoded (GoStr.Repeat "=" (4 - m)) else encoded.

(** [func DecodeKey(encoded string)], returning a key and an error. *)
Definition DecodeKey (encoded : string) : option Key * error :=
  match base64.DecodeString (GoStr.to_bytes (repad encoded)) with
  | None => (None, Some CorruptInputError)
  | Some b =>
      match pb.Unmarshal b with
      | None => (None, Some (ErrProto "proto: bad wire data"))
      | Some ref => protoToKey ref
      end
  end.

(** ** Slices (the Go runtime)

    A slice is a pointer to a backing array with a length and a capacity;
    a copy of a slice shares the array.  The heap lists the backing arrays,
    an array's address being its index. *)

Module slice.

Record t : Type := mk { ptr : option nat; len : nat; cap : nat }.

(** The nil slice. *)
Definition nil : t := mk None 0 0.

Definition is_nil (s : t) : bool := match ptr s with None => true | Some _ => false end.

(** The loop of the runtime's [growslice]: the capacity doubles while the
    slice is short, and grows by a quarter from 1024 elements on, until the
    wanted capacity is reached. *)
Fixpoint grow_loop (fuel len_ m newcap : nat) : nat :=
  match fuel with
  | O => m
  | S fuel' =>
      let m' := if (len_ <? 1024)%nat then (m + m)%nat else (m + m / 4)%nat in
      if (m' <? newcap)%nat then grow_loop fuel' len_ m' newcap else m'
  end.

Definition growslice (len_ cap_ newcap : nat) : nat :=
  if (cap_ =? 0)%nat then newcap else grow_loop newcap len_ cap_ newcap.

(** The heap of the backing arrays with elements of type [A]. *)
Abbreviation heap A := (list (list A)).

Section Heap.

Context {A : Type} (zero : A).

Definition array (h : heap A) (s : t) : list A :=
  match ptr s with
  | Some p => default [] (h !! p)
  | None => []
  end.

(** The elements [s[0], ..., s[len(s)-1]]. *)
Definition elems (h : heap A) (s : t) : list A := take (len s) (array h s).

(** [append(s, x)]: with spare capacity the element is written into the
    backing array of [s]; otherwise a larger array is allocated and the
    elements are copied to it. *)
Definition append (h : heap A) (s : t) (x : A) : t * heap A :=
  if (len s <? cap s)%nat then
    match ptr s with
    | Some p => (mk (Some p) (S (len s)) (cap s), alter (fun a => <[len s := x]> a) p h)
    | None => (s, h)
    end
  else
    let c := growslice (len s) (cap s) (S (len s)) in
    let a := (elems h s ++ [x] ++ replicate (c - S (len s)) zero)%list in
    (mk (Some (length h)) (S (len s)) c, (h ++ [a])%list).

End Heap.

End slice.

(** ** Filter values

    The [interface{}] value of a filter, by its dynamic type: the scalar
    kinds the conversion to the wire knows, and [VOther] for a value of any
    other type, with the name of its type and its [%#v] text. *)

Inductive Value : Type :=
| VInt (i : Z)
| VBool (b : bool)
| VString (s : string)
| VOther (typeName goSyntax : string).

Module fmt.

Definition dquote : string := String "034" EmptyString.

(** [strconv.Quote] on text of printable ASCII: the double quote and the
    backslash are escaped. *)
Fixpoint escape (s : string) : string :=
  match s with
  | EmptyString => EmptyString
  | String c r =>
      if Ascii.eqb c "034" || Ascii.eqb c "092"
      then String "092" (String c (escape r))
      else String c (escape r)
  end.

(** The verb [%#v]: a value in Go syntax. *)
Definition GoSyntax (v : Value) : string :=
  match v with
  | VInt i => GoStr.Itoa64 i
  | VBool b => if b then "true" else "false"
  | VString s => dquote ++ escape s ++ dquote
  | VOther _ g => g
  end.

End fmt.

(** ** The wire query ([appengine_internal/datastore]) *)

Module pbq.

Inductive Query_Filter_Operator : Type :=
| LESS_THAN
| LESS_THAN_OR_EQUAL
| GREATER_THAN
| GREATER_THAN_OR_EQUAL
| EQUAL
| IN
| EXISTS.

Inductive Query_Order_Direction : Type :=
| ASCENDING
| DESCENDING.

Inductive PropertyValue : Type :=
| Int64Value (i : Z)
| BooleanValue (b : bool)
| StringValue (s : string).

Record Property : Type := mkProperty {
  Property_Name : string;
  Property_Value : PropertyValue;
  Property_Multiple : bool
}.

Record Query_Filter : Type := mkFilter {
  Op : option Query_Filter_Operator;
  Property_ : list (option Property)
}.

Record Query_Order : Type := mkOrder {
  Order_Property : option string;
  Direction : option Query_Order_Direction
}.

Record Query : Type := mkQuery {
  Kind : option string;
  Ancestor : option pb.Reference;
  Filter : list Query_Filter;
  Order : list Query_Order;
  Limit : option Z;
  Offset : option Z;
  KeysOnly : option bool;
  Compile : option bool;
  CompiledCursor : option string;
  EndCompiledCursor : option string
}.

(** The zero values [var filter pb.Query_Filter], [var order pb.Query_Order]
    and [new(pb.Query)]. *)
Definition zero_Filter : Query_Filter := mkFilter None [].
Definition zero_Order : Query_Order := mkOrder None None.
Definition zero_Query : Query :=
  mkQuery None None [] [] None None None None None None.

Definition set_Kind (v : option string) (q : Query) : Query :=
  mkQuery v (Ancestor q) (Filter q) (Order q) (Limit q) (Offset q)
          (KeysOnly q) (Compile q) (CompiledCursor q) (EndCompiledCursor q).
Definition set_Ancestor (v : option pb.Reference) (q : Query) : Query :=
  mkQuery (Kind q) v (Filter q) (Order q) (Limit q) (Offset q)
          (KeysOnly q) (Compile q) (CompiledCursor q) (EndCompiledCursor q).
Definition set_Filter (v : list Query_Filter) (q : Query) : Query :=
  mkQuery (Kind q) (Ancestor q) v (Order q) (Limit q) (Offset q)
          (KeysOnly q) (Compile q) (CompiledCursor q) (EndCompiledCursor q).
Definition set_Order (v : list Query_Order) (q : Query) : Query :=
  mkQuery (Kind q) (Ancestor q) (Filter q) v (Limit q) (Offset q)
          (KeysOnly q) (Compile q) (CompiledCursor q) (EndCompiledCursor q).
Definition set_Limit (v : option Z) (q : Query) : Query :=
  mkQuery (Kind q) (Ancestor q) (Filter q) (Order q) v (Offset q)
          (KeysOnly q) (Compile q) (CompiledCursor q) (EndCompiledCursor q).
Definition set_Offset (v : option Z) (q : Query) : Query :=
  mkQuery (Kind q) (Ancestor q) (Filter q) (Order q) (Limit q) v
          (KeysOnly q) (Compile q) (CompiledCursor q) (EndCompiledCursor q).
Definition set_KeysOnly (v : option bool) (q : Query) : Query :=
  mkQuery (Kind q) (Ancestor q) (Filter q) (Order q) (Limit q) (Offset q)
          v (Compile q) (CompiledCursor q) (EndCompiledCursor q).
Definition set_Compile (v : option bool) (q : Query) : Query :=
  mkQuery (Kind q) (Ancestor q) (Filter q) (Order q) (Limit q) (Offset q)
          (KeysOnly q) v (CompiledCursor q) (EndCompiledCursor q).
Definition set_CompiledCursor (v : option string) (q : Query) : Query :=
  mkQuery (Kind q) (Ancestor q) (Filter q) (Order q) (Limit q) (Offset q)
          (KeysOnly q) (Compile q) v (EndCompiledCursor q).
Definition set_EndCompiledCursor (v : option string) (q : Query) : Query :=
  mkQuery (Kind q) (Ancestor q) (Filter q) (Order q) (Limit q) (Offset q)
          (KeysOnly q) (Compile q) (CompiledCursor q) v.

End pbq.

(** Modelled from the spec: [valueToProto], the value-conversion routine of
    the package, is not among the sources.  It maps the dynamic type of the
    scalar to the tagged property value of the wire and reports a value of
    any other type with the name of that type, as the error text. *)
Definition valueToProto (name : string) (v : Value) (multiple : bool)
  : option pbq.Property * string :=
  match v with
  | VInt i => (Some (pbq.mkProperty name (pbq.Int64Value i) multiple), "")
  | VBool b => (Some (pbq.mkProperty name (pbq.BooleanValue b) multiple), "")
  | VString s => (Some (pbq.mkProperty name (pbq.StringValue s) multiple), "")
  | VOther ty _ => (None, "unsupported datastore value type: " ++ ty)
  end.

(** Modelled from the spec: the method [toProto] of a key, which
    [Query.toProto] calls for the ancestor, is not among the sources; the
    ancestor is encoded into the wire reference as [keyToProto] does. *)
Definition Key_toProto (k : Key) : pb.Reference := keyToProto k.

(** ** queryFilter (query.go) *)

Module queryFilter.

Record t : Type := mk { filter : string; value : Value }.

(** [var operatorToProto = map[string]*pb.Query_Filter_Operator{...}] *)
Definition operatorToProto : list (string * pbq.Query_Filter_Operator) :=
  [("<", pbq.LESS_THAN);
   ("<=", pbq.LESS_THAN_OR_EQUAL);
   ("=", pbq.EQUAL);
   (">=", pbq.GREATER_THAN_OR_EQUAL);
   (">", pbq.GREATER_THAN)].

(** Indexing a map: the value of the key, or nil. *)
Fixpoint index {V : Type} (m : list (string * V)) (k : string) : option V :=
  match m with
  | [] => None
  | (k', v) :: r => if String.eqb k k' then Some v else index r k
  end.

(** [func (q queryFilter) String() string] *)
Definition String_ (q : t) : string := filter q ++ fmt.GoSyntax (value q).

(** [func (q queryFilter) parse() (property, operator string, err os.Error)] *)
Definition parse (q : t) : string * string * error :=
  let filter_ := GoStr.TrimSpace (filter q) in
  if isEmpty filter_ then
    ("", "", Some (NewError ("datastore: invalid query filter: " ++ filter_)))
  else
    let property := GoStr.TrimRight filter_ " ><=" in
    if isEmpty property then
      (property, "", Some (NewError "datastore: empty query filter property"))
    else
      (property, GoStr.TrimSpace (GoStr.from (String.length property) filter_), None).

(** [func (q queryFilter) toProto(dst *pb.Query_Filter) os.Error] *)
Definition toProto (q : t) (dst : pbq.Query_Filter) : pbq.Query_Filter * error :=
  let '(property, operator, err) := parse q in
  match err with
  | Some e => (dst, Some e)
  | None =>
      let dst1 := pbq.mkFilter (index operatorToProto operator) (pbq.Property_ dst) in
      match pbq.Op dst1 with
      | None => (dst1, Some (ErrInvalidOperator operator (filter q)))
      | Some _ =>
          let '(prop, errStr) := valueToProto property (value q) false in
          if negb (isEmpty errStr) then (dst1, Some (ErrBadFilterValue errStr))
          else (pbq.mkFilter (pbq.Op dst1) [prop], None)
      end
  end.

End queryFilter.

(** ** queryOrder (query.go) *)

Module queryOrder.

Definition t : Type := string.

(** [var orderDirectionToProto = map[string]*pb.Query_Order_Direction{...}] *)
Definition orderDirectionToProto : list (string * pbq.Query_Order_Direction) :=
  [("+", pbq.ASCENDING); ("-", pbq.DESCENDING)].

(** [func (q queryOrder) parse() (property, direction string, err os.Error)] *)
Definition parse (q : t) : string * string * error :=
  let property := GoStr.TrimSpace q in
  if GoStr.HasPrefix property "-" then
    (GoStr.TrimSpace (GoStr.from 1 property), "-", None)
  else (property, "+", None).

(** [func (q queryOrder) String() string] *)
Definition String_ (q : t) : string :=
  let '(property, direction, _) := parse q in
  let direction' := if String.eqb direction "+" then "ASC" else "DESC" in
  property ++ " " ++ direction'.

(** [func (q queryOrder) toProto(dst *pb.Query_Order) os.Error] *)
Definition toProto (q : t) (dst : pbq.Query_Order) : pbq.Query_Order * error :=
  let '(property, direction, _) := parse q in
  if isEmpty property then
    (dst, Some (NewError "datastore: empty query order property"))
  else
    (pbq.mkOrder (Some property) (queryFilter.index orderDirectionToProto direction), None).

End queryOrder.

(** ** Query (query.go) *)

(** The backing arrays of the filter and order slices of all queries. *)
Record Store : Type := mkStore {
  filters : slice.heap queryFilter.t;
  orders : slice.heap queryOrder.t
}.

Definition empty_Store : Store := mkStore [] [].

Module Query.

Record t : Type := mk {
  kind : string;
  ancestor : option Key;
  filter : slice.t;
  order : slice.t
}.

(** [func NewQuery(kind string) *Query] *)
Definition NewQuery (kind_ : string) : t := mk kind_ None slice.nil slice.nil.

(** The zero values of the element types. *)
Definition zero_filter : queryFilter.t := queryFilter.mk "" (VOther "nil" "<nil>").
Definition zero_order : queryOrder.t := "".

(** What [range q.filter] and [range q.order] go through. *)
Definition filter_elems (st : Store) (q : t) : list queryFilter.t :=
  slice.elems (filters st) (filter q).
Definition order_elems (st : Store) (q : t) : list queryOrder.t :=
  slice.elems (orders st) (order q).

(** [func (q *Query) Kind(kind string) *Query] *)
Definition Kind (q : t) (kind_ : string) : t :=
  mk kind_ (ancestor q) (filter q) (order q).

(** [func (q *Query) Ancestor(ancestor *Key) *Query] *)
Definition Ancestor (q : t) (ancestor_ : option Key) : t :=
  mk (kind q) ancestor_ (filter q) (order q).

(** [func (q *Query) Filter(filterStr string, value interface{}) *Query]:
    the struct is copied, the slice header with it, and [append] works on
    the copy's header. *)
Definition Filter (q : t) (filterStr : string) (value : Value) (st : Store) : t * Store :=
  let '(s, h) := slice.append zero_filter (filters st) (filter q)
                   (queryFilter.mk filterStr value) in
  (mk (kind q) (ancestor q) s (order q), mkStore h (orders st)).

(** [func (q *Query) Order(order string) *Query] *)
Definition Order (q : t) (order_ : string) (st : Store) : t * Store :=
  let '(s, h) := slice.append zero_order (orders st) (order q) order_ in
  (mk (kind q) (ancestor q) (filter q) s, mkStore (filters st) h).

(** The loop over the filters in [String]. *)
Fixpoint String_filters (fs : list queryFilter.t) (hasWhere : bool) (buf : string) : string :=
  match fs with
  | [] => buf
  | f :: rest =>
      let buf1 := if negb hasWhere then buf ++ " WHERE" else buf ++ " AND" in
      String_filters rest true (buf1 ++ " " ++ queryFilter.String_ f)
  end.

(** The loop over the orders in [String], [i] being the index. *)
Fixpoint String_orders (os : list queryOrder.t) (i : nat) (buf : string) : string :=
  match os with
  | [] => buf
  | o :: rest =>
      let buf1 := if (0 <? i)%nat then buf ++ "," else buf in
      String_orders rest (S i) (buf1 ++ " " ++ queryOrder.String_ o)
  end.

(** [func (q *Query) String() string]; [None] is the panic of [Encode]. *)
Definition String_ (st : Store) (q : t) : option string :=
  let buf0 := "SELECT *" in
  let buf1 := if negb (isEmpty (kind q)) then buf0 ++ " FROM " ++ kind q else buf0 in
  let r :=
    match ancestor q with
    | Some a =>
        match Encode a with
        | Some enc => Some (buf1 ++ " WHERE ANCESTOR IS KEY('" ++ enc ++ "')", true)
        | None => None
        end
    | None => Some (buf1, false)
    end in
  match r with
  | None => None
  | Some (buf2, hasWhere) =>
      let buf3 :=
        if negb (slice.is_nil (filter q))
        then String_filters (filter_elems st q) hasWhere buf2 else buf2 in
      let buf4 :=
        if negb (slice.is_nil (order q))
        then String_orders (order_elems st q) 0 (buf3 ++ " ORDER BY") else buf3 in
      Some buf4
  end.

(** [errMulti = append(errMulti, err)] under [if err != nil]. *)
Definition record (errMulti : ErrMulti) (err : error) : ErrMulti :=
  match err with
  | Some e => (errMulti ++ [Some e])%list
  | None => errMulti
  end.

(** The loop of [toProto] over the filters: every slot of [dst.Filter] is
    assigned, the error of a filter is recorded. *)
Fixpoint toProto_filters (fs : list queryFilter.t) (errMulti : ErrMulti)
  : list pbq.Query_Filter * ErrMulti :=
  match fs with
  | [] => ([], errMulti)
  | f :: rest =>
      let '(filter_, err) := queryFilter.toProto f pbq.zero_Filter in
      let '(out, errMulti') := toProto_filters rest (record errMulti err) in
      (filter_ :: out, errMulti')
  end.

Fixpoint toProto_orders (os : list queryOrder.t) (errMulti : ErrMulti)
  : list pbq.Query_Order * ErrMulti :=
  match os with
  | [] => ([], errMulti)
  | o :: rest =>
      let '(order_, err) := queryOrder.toProto o pbq.zero_Order in
      let '(out, errMulti') := toProto_orders rest (record errMulti err) in
      (order_ :: out, errMulti')
  end.

(** [func (q *Query) toProto(dst *pb.Query) os.Error]: the message [dst] as
    it is left, and the error returned. *)
Definition toProto (st : Store) (q : t) (dst : pbq.Query) : pbq.Query * option ErrMulti :=
  let '(dst1, errMulti1) :=
    if negb (isEmpty (kind q)) then (pbq.set_Kind (Some (kind q)) dst, [])
    else (dst, [Some (NewError "datastore: empty query kind")]) in
  let dst2 :=
    match ancestor q with
    | Some a => pbq.set_Ancestor (Some (Key_toProto a)) dst1
    | None => dst1
    end in
  let '(dst3, errMulti3) :=
    if negb (slice.is_nil (filter q)) then
      let '(fs, em) := toProto_filters (filter_elems st q) errMulti1 in
      (pbq.set_Filter fs dst2, em)
    else (dst2, errMulti1) in
  let '(dst4, errMulti4) :=
    if negb (slice.is_nil (order q)) then
      let '(os, em) := toProto_orders (order_elems st q) errMulti3 in
      (pbq.set_Order os dst3, em)
    else (dst3, errMulti3) in
  if (0 <? length errMulti4)%nat then (dst4, Some errMulti4) else (dst4, None).

End Query.

(** ** QueryOptions (query.go) *)

(** [math.MaxInt32] *)
Definition MaxInt32 : Z := 2 ^ 31 - 1.

(** [func validInt32(value int, name string) os.Error] *)
Definition validInt32 (value : Z) (name : string) : error :=
  if value <? 0 then Some (NewError ("datastore: negative value for " ++ name))
  else if value >? MaxInt32 then Some (NewError ("datastore: value overflow for " ++ name))
  else None.

(** A [Cursor] holds the compiled cursor of the backend, an opaque token. *)
Record Cursor : Type := mkCursor { compiledCursor : option string }.

Module QueryOptions.

Record t : Type := mk {
  limit : Z;
  offset : Z;
  keysOnly : bool;
  compile : bool;
  startCursor : option Cursor;
  endCursor : option Cursor
}.

(** [func NewQueryOptions(limit int, offset int) *QueryOptions] *)
Definition NewQueryOptions (limit_ offset_ : Z) : t :=
  mk limit_ offset_ false false None None.

Definition Limit (o : t) (limit_ : Z) : t :=
  mk limit_ (offset o) (keysOnly o) (compile o) (startCursor o) (endCursor o).
Definition Offset (o : t) (offset_ : Z) : t :=
  mk (limit o) offset_ (keysOnly o) (compile o) (startCursor o) (endCursor o).
Definition KeysOnly (o : t) (keysOnly_ : bool) : t :=
  mk (limit o) (offset o) keysOnly_ (compile o) (startCursor o) (endCursor o).
Definition Compile (o : t) (compile_ : bool) : t :=
  mk (limit o) (offset o) (keysOnly o) compile_ (startCursor o) (endCursor o).
Definition Cursor_ (o : t) (cursor : option Cursor) : t :=
  mk (limit o) (offset o) (keysOnly o) (compile o) cursor (endCursor o).

(** [func (o *QueryOptions) toProto(dst *pb.Query) os.Error] *)
Definition toProto (o : t) (dst : pbq.Query) : pbq.Query * option ErrMulti :=
  let '(dst1, errMulti1) :=
    match validInt32 (limit o) "limit" with
    | Some err => (dst, [Some err])
    | None => (pbq.set_Limit (Some (limit o)) dst, [])
    end in
  let '(dst2, errMulti2) :=
    match validInt32 (offset o) "offset" with
    | Some err => (dst1, (errMulti1 ++ [Some err])%list)
    | None => (pbq.set_Offset (Some (offset o)) dst1, errMulti1)
    end in
  let dst3 := pbq.set_KeysOnly (Some (keysOnly o)) dst2 in
  let dst4 := pbq.set_Compile (Some (compile o)) dst3 in
  let dst5 :=
    match startCursor o with
    | Some c => pbq.set_CompiledCursor (compiledCursor c) dst4
    | None => dst4
    end in
  let dst6 :=
    match endCursor o with
    | Some c => pbq.set_EndCompiledCursor (compiledCursor c) dst5
    | None => dst5
    end in
  if (0 <? length errMulti2)%nat then (dst6, Some errMulti2) else (dst6, None).

End QueryOptions.

(** ** Vocabulary of the statements *)

(** The levels of a chain from the leaf to the root, each as the tuple
    (kind, stringID, intID, appID, namespace) that [Eq] compares. *)
Fixpoint levels (k : Key) : list (string * string * Z * string * string) :=
  match k with
  | mkKey a ns p kd s i =>
      (kd, s, i, a, ns) :: match p with Some p' => levels p' | None => [] end
  end.

(** The path elements of a chain, the root first, put before [e]. *)
Fixpoint path_elements (k : Key) (e : list pb.Path_Element) : list pb.Path_Element :=
  match k with
  | mkKey _ _ p _ _ _ =>
      let e' := element_of k :: e in
      match p with
      | Some p' => path_elements p' e'
      | None => e'
      end
  end.

(** The slot of a key in the result of [multiValid]. *)
Definition slot_of (k : option Key) : error :=
  if valid k then None else Some ErrInvalidKey.

(** The errors that the filters and the orders of a query report, in the
    order of the filters and of the orders. *)
Definition error_list (err : error) : ErrMulti :=
  match err with
  | Some e => [Some e]
  | None => []
  end.

Definition filter_errors (fs : list queryFilter.t) : ErrMulti :=
  flat_map (fun f => error_list (snd (queryFilter.toProto f pbq.zero_Filter))) fs.

Definition order_errors (os : list queryOrder.t) : ErrMulti :=
  flat_map (fun o => error_list (snd (queryOrder.toProto o pbq.zero_Order))) os.

(** A composite error is returned when the accumulator is not empty. *)
Definition as_error (errMulti : ErrMulti) : option ErrMulti :=
  match errMulti with
  | [] => None
  | _ :: _ => Some errMulti
  end.

(** ** Sample values *)

Definition key_app1 : Key := mkKey "app1" "" None "Person" "alice" 0.
Definition key_app2 : Key := mkKey "app2" "" None "Person" "alice" 0.
Definition key_child : Key := mkKey "app1" "" (Some key_app1) "Pet" "" 7.

(** [NewQuery("Person").Filter("age >=", 18).Order("-age")] *)
Definition person_query : Query.t * Store :=
  let q0 := Query.NewQuery "Person" in
  let '(q1, st1) := Query.Filter q0 "age >=" (VInt 18) empty_Store in
  Query.Order q1 "-age" st1.

(** [NewQuery("Person").Filter("", 0)] and the options with limit -1. *)
Definition empty_filter_query : Query.t * Store :=
  Query.Filter (Query.NewQuery "Person") "" (VInt 0) empty_Store.

Definition negative_limit_options : QueryOptions.t :=
  QueryOptions.NewQueryOptions (-1) 0.

(** [NewQuery("Person").Filter("a =", 1).Filter("b =", 2).Filter("c =", 3)] *)
Definition three_filters : Query.t * Store :=
  let q0 := Query.NewQuery "Person" in
  let '(q1, st1) := Query.Filter q0 "a =" (VInt 1) empty_Store in
  let '(q2, st2) := Query.Filter q1 "b =" (VInt 2) st1 in
  Query.Filter q2 "c =" (VInt 3) st2.

(** The padding of [DecodeKey] on bytes. *)
Definition repad_bytes (l : GoStr.bytes) : GoStr.bytes :=
  let m := (length l mod 4)%nat in
  if negb (m =? 0)%nat then (l ++ replicate (4 - m) base64.pad)%list else l.

(** A path element that [Marshal] accepts and [Unmarshal] gives back: its
    required type is set and its id, when set, is an [int64]. *)
Definition element_ok (e : pb.Path_Element) : Prop :=
  pb.Type_ e <> None
  /\ match pb.Id e with
     | Some i => int64_min <= i <= int64_max
     | None => True
     end.

(** ** Induction along an ancestor chain *)

Section KeyInduction.

Variable P : Key -> Prop.
Hypothesis P_root : forall a ns kd s i, P (mkKey a ns None kd s i).
Hypothesis P_child : forall a ns p kd s i, P p -> P (mkKey a ns (Some p) kd s i).

Fixpoint Key_chain_ind (k : Key) : P k :=
  match k with
  | mkKey a ns None kd s i => P_root a ns kd s i
  | mkKey a ns (Some p) kd s i => P_child a ns p kd s i (Key_chain_ind p)
  end.

End KeyInduction.

(** ** Induction on a list by groups of three *)

Section ListInd3.

Variable A : Type.
Variable P : list A -> Prop.
Hypothesis P0 : P [].
Hypothesis P1 : forall x, P [x].
Hypothesis P2 : forall x y, P [x; y].
Hypothesis P3 : forall x y z l, P l -> P (x :: y :: z :: l).

Fixpoint list_ind3 (l : list A) : P l :=
  match l with
  | [] => P0
  | [x] => P1 x
  | [x; y] => P2 x y
  | x :: y :: z :: r => P3 x y z r (list_ind3 r)
  end.

End ListInd3.

(** ** The rest of key.go *)

(** [appengine.Context]: the keys ask it for the application ID only. *)
Record Context : Type := mkContext { FullyQualifiedAppID : string }.

(** [func NewKey(c appengine.Context, kind, stringID string, intID int64,
    parent *Key) *Key]; the namespace is left at its zero value. *)
Definition NewKey (c : Context) (kind_ stringID_ : string) (intID_ : Z)
  (parent_ : option Key) : Key :=
  mkKey (FullyQualifiedAppID c) "" parent_ kind_ stringID_ intID_.

(** [func NewIncompleteKey(c appengine.Context, kind string, parent *Key) *Key] *)
Definition NewIncompleteKey (c : Context) (kind_ : string) (parent_ : option Key) : Key :=
  NewKey c kind_ "" 0 parent_.

(** The loop of [NewNamespaceKey], entered with a non-nil [p]: while the
    namespace is empty it takes the namespace of [p] and goes up. *)
Fixpoint NewNamespaceKey_loop (p : Key) (namespace_ : string) : string :=
  match p with
  | mkKey _ ns pp _ _ _ =>
      if isEmpty namespace_ then
        match pp with
        | Some p' => NewNamespaceKey_loop p' ns
        | None => ns
        end
      else namespace_
  end.

(** [func NewNamespaceKey(c appengine.Context, kind, stringID string, intID
    int64, parent *Key, namespace string) *Key] *)
Definition NewNamespaceKey (c : Context) (kind_ stringID_ : string) (intID_ : Z)
  (parent_ : option Key) (namespace_ : string) : Key :=
  let namespace' :=
    match parent_ with
    | Some p => NewNamespaceKey_loop p namespace_
    | None => namespace_
    end in
  mkKey (FullyQualifiedAppID c) namespace' parent_ kind_ stringID_ intID_.

(** [func (k *Key) root() *Key] *)
Fixpoint root (k : Key) : Key :=
  match k with
  | mkKey _ _ p _ _ _ =>
      match p with
      | Some p' => root p'
      | None => k
      end
  end.

(** The text of the id that [marshal] writes. *)
Definition id_text (k : Key) : string :=
  if negb (isEmpty (stringID k)) then stringID k else GoStr.Itoa64 (intID k).

(** [func (k *Key) marshal(b *bytes.Buffer)] of key.go: [b] is the content
    of the buffer, the result its content afterwards. *)
Fixpoint marshal (k : Key) (b : string) : string :=
  match k with
  | mkKey _ ns p kd _ _ =>
      let b1 := match p with Some p' => marshal p' b | None => b end in
      b1 ++ ns ++ "/" ++ kd ++ "," ++ id_text k
  end.

(** [func (k *Key) String() string] of key.go *)
Definition Key_String (k : option Key) : string :=
  match k with
  | None => ""
  | Some k' => marshal k' ""
  end.

(** [marshal] of the refined implementation: the namespace is written for
    the root only. *)
Fixpoint marshal_refined (k : Key) (b : string) : string :=
  match k with
  | mkKey _ ns p kd _ _ =>
      let b1 := match p with Some p' => marshal_refined p' b | None => b ++ ns end in
      b1 ++ "/" ++ kd ++ "," ++ id_text k
  end.

(** [String] of the refined implementation. *)
Definition Key_String_refined (k : option Key) : string :=
  match k with
  | None => ""
  | Some k' => marshal_refined k' ""
  end.

(** *** gobKey *)

Module gobKey.

#[warnings="-register-all"]
Inductive t : Type := mk {
  Kind : string;
  StringID : string;
  IntID : Z;
  Parent : option t;
  AppID : string;
  Namespace : string
}.

End gobKey.

Fixpoint keyToGobKey_loop (k : Key) : gobKey.t :=
  match k with
  | mkKey a ns p kd s i =>
      gobKey.mk kd s i
        (match p with Some p' => Some (keyToGobKey_loop p') | None => None end) a ns
  end.

(** [func keyToGobKey(k *Key) *gobKey] *)
Definition keyToGobKey (k : option Key) : option gobKey.t :=
  match k with
  | None => None
  | Some k' => Some (keyToGobKey_loop k')
  end.

Fixpoint gobKeyToKey_loop (gk : gobKey.t) : Key :=
  match gk with
  | gobKey.mk kd s i p a ns =>
      mkKey a ns
        (match p with Some p' => Some (gobKeyToKey_loop p') | None => None end) kd s i
  end.

(** [func gobKeyToKey(gk *gobKey) *Key] *)
Definition gobKeyToKey (gk : option gobKey.t) : option Key :=
  match gk with
  | None => None
  | Some gk' => Some (gobKeyToKey_loop gk')
  end.

(** *** JSON *)

(** What a call comes to: it returns, or it panics. *)
Inductive outcome (A : Type) : Type :=
| Return (a : A)
| Panic.

Arguments Return {A} a.
Arguments Panic {A}.

Definition dquote : ascii := "034"%char.

(** [func (k *Key) MarshalJSON() ([]byte, os.Error)]: the error is always
    nil; [Panic] is the panic of [Encode]. *)
Definition MarshalJSON (k : Key) : outcome GoStr.bytes :=
  match Encode k with
  | Some enc => Return (dquote :: GoStr.to_bytes enc ++ [dquote])%list
  | None => Panic
  end.

(** [func (k *Key) UnmarshalJSON(buf []byte) os.Error]: the receiver as it
    is left and the error returned.  [*k = *k2] panics when [DecodeKey] has
    returned a nil key with a nil error. *)
Definition UnmarshalJSON (k : Key) (buf : GoStr.bytes) : outcome (Key * error) :=
  let n := length buf in
  if (n <? 2)%nat
     || negb (Ascii.eqb (nth 0 buf zero) dquote)
     || negb (Ascii.eqb (nth (n - 1) buf zero) dquote)
  then Return (k, Some (NewError "datastore: bad JSON key"))
  else
    match DecodeKey (GoStr.of_bytes (take (n - 1 - 1) (drop 1 buf))) with
    | (_, Some err) => Return (k, Some err)
    | (Some k2, None) => Return (k2, None)
    | (None, None) => Panic
    end.

(** *** PropertyValue_ReferenceValue *)

Module pbr.

Record PathElement : Type := mkPathElement {
  Type_ : option string;
  Id : option Z;
  Name : option string
}.

Record ReferenceValue : Type := mkReferenceValue {
  App : option string;
  NameSpace : option string;
  Pathelement : list PathElement
}.

End pbr.

(** The loop of [referenceValueToKey], as that of [protoToKey]. *)
Fixpoint referenceValueToKey_loop (appID_ namespace_ : string) (es : list pbr.PathElement)
  (k : option Key) : option Key * error :=
  match es with
  | [] => (k, None)
  | e :: es' =>
      let k' := mkKey appID_ namespace_ k
                  (proto.GetString (pbr.Type_ e))
                  (proto.GetString (pbr.Name e))
                  (proto.GetInt64 (pbr.Id e)) in
      if negb (valid (Some k')) then (None, Some ErrInvalidKey)
      else referenceValueToKey_loop appID_ namespace_ es' (Some k')
  end.

(** [func referenceValueToKey(r *pb.PropertyValue_ReferenceValue)] *)
Definition referenceValueToKey (r : pbr.ReferenceValue) : option Key * error :=
  referenceValueToKey_loop (proto.GetString (pbr.App r)) (proto.GetString (pbr.NameSpace r))
    (pbr.Pathelement r) None.

(** A loop [for i, x := range l { out[i] = f(x) }]. *)
Fixpoint range_fill {A B : Type} (f : A -> B) (l : list A) (i : nat) (out : list B) : list B :=
  match l with
  | [] => out
  | x :: rest => range_fill f rest (S i) (<[i := f x]> out)
  end.

(** [func keyToReferenceValue(k *Key) *pb.PropertyValue_ReferenceValue] *)
Definition keyToReferenceValue (k : Key) : pbr.ReferenceValue :=
  let ref := keyToProto k in
  let es := pb.Element (pb.Path_ ref) in
  let pe := replicate (length es) (pbr.mkPathElement None None None) in
  pbr.mkReferenceValue (pb.App ref) (pb.NameSpace ref)
    (range_fill (fun e => pbr.mkPathElement (pb.Type_ e) (pb.Id e) (pb.Name e)) es 0 pe).

(** The loop of [multiKeyToProto]; [keyToProto] of a nil key panics. *)
Fixpoint multiKeyToProto_loop (key : list (option Key)) (i : nat)
  (ret : list (option pb.Reference)) : outcome (list (option pb.Reference)) :=
  match key with
  | [] => Return ret
  | None :: _ => Panic
  | Some k :: rest => multiKeyToProto_loop rest (S i) (<[i := Some (keyToProto k)]> ret)
  end.

(** [func multiKeyToProto(appID string, key []*Key) []*pb.Reference] *)
Definition multiKeyToProto (appID_ : string) (key : list (option Key))
  : outcome (list (option pb.Reference)) :=
  multiKeyToProto_loop key 0 (replicate (length key) None).

(** [func delta(x, y uint8) uint8] of the file's colour tests; the
    subtraction of [uint8] wraps around. *)
Definition delta (x y : Z) : Z :=
  if x >=? y then (x - y) mod 256 else (y - x) mod 256.

(** ** Further vocabulary *)

(** The levels of a chain as keys, the key itself first, the root last. *)
Fixpoint chain (k : Key) : list Key :=
  match k with
  | mkKey _ _ p _ _ _ => k :: match p with Some p' => chain p' | None => [] end
  end.

(** A slice that its heap backs: the length is within the capacity and the
    capacity within the backing array. *)
Definition slice_wf {A : Type} (h : slice.heap A) (s : slice.t) : Prop :=
  (slice.len s <= slice.cap s)%nat
  /\ match slice.ptr s with
     | Some p => exists arr, h !! p = Some arr /\ (slice.cap s <= length arr)%nat
     | None => slice.cap s = 0%nat
     end.

Definition Query_wf (st : Store) (q : Query.t) : Prop :=
  slice_wf (filters st) (Query.filter q) /\ slice_wf (orders st) (Query.order q).

(** [q.Filter(f1, v1).Filter(f2, v2)...], each call on the result of the
    one before. *)
Fixpoint Filter_chain (q : Query.t) (fs : list queryFilter.t) (st : Store)
  : Query.t * Store :=
  match fs with
  | [] => (q, st)
  | f :: rest =>
      let '(q', st') := Query.Filter q (queryFilter.filter f) (queryFilter.value f) st in
      Filter_chain q' rest st'
  end.

(** The namespaces of the levels below the root, the key's own first. *)
Fixpoint namespaces_below_root (k : Key) : list string :=
  match k with
  | mkKey _ ns p _ _ _ =>
      match p with
      | Some p' => ns :: namespaces_below_root p'
      | None => []
      end
  end.

(** A text of ASCII: every byte is below 128 and is a code point of its
    own.  On such a text [unicode.IsSpace], which [strings.TrimSpace] asks,
    is [GoStr.isSpace]; a text with other bytes can hold the spaces U+0085,
    U+00A0 and beyond, which [GoStr.TrimSpace] does not model. *)
Definition ascii_text (s : string) : bool :=
  forallb (fun c => N.ltb (N_of_ascii c) 128) (GoStr.to_bytes s).

(** [t] is [s] without the white space at its two ends: what is left out on
    either side is white space, and [t] neither begins nor ends with it. *)
Definition trimmed (s t : GoStr.bytes) : Prop :=
  exists l r : GoStr.bytes,
    s = (l ++ t ++ r)%list
    /\ forallb GoStr.isSpace l = true
    /\ forallb GoStr.isSpace r = true
    /\ (forall c, head t = Some c -> GoStr.isSpace c = false)
    /\ (forall c, last t = Some c -> GoStr.isSpace c = false).

(** The characters that end a filter text after its property: [<], [>],
    [=] and the space. *)
Definition operator_char (c : ascii) : bool := GoStr.inCutset " ><=" c.

(** Induction along a chain of gob keys. *)
Section GobKeyInduction.

Variable P : gobKey.t -> Prop.
Hypothesis P_root : forall kd s i a ns, P (gobKey.mk kd s i None a ns).
Hypothesis P_child : forall kd s i p a ns, P p -> P (gobKey.mk kd s i (Some p) a ns).

Fixpoint gobKey_chain_ind (gk : gobKey.t) : P gk :=
  match gk with
  | gobKey.mk kd s i None a ns => P_root kd s i a ns
  | gobKey.mk kd s i (Some p) a ns => P_child kd s i p a ns (gobKey_chain_ind p)
  end.

End GobKeyInduction.

Definition context_app1 : Context := mkContext "app1".

(** Sample keys in a namespace. *)
Definition key_ns_root : Key := mkKey "app1" "ns" None "Person" "alice" 0.
Definition key_ns_child : Key := mkKey "app1" "ns" (Some key_ns_root) "Pet" "" 7.

(* ================================================================== *)
(** * Part II: properties *)
(* ================================================================== *)

Local Open Scope list_scope.

Lemma isEmpty_true (s : string) : isEmpty s = true <-> s = "".
Proof. unfold isEmpty. apply String.eqb_eq. Qed.

Lemma isEmpty_false (s : string) : isEmpty s = false <-> s <> "".
Proof. unfold isEmpty. apply String.eqb_neq. Qed.

(** ** validInt32 *)

(** C8: [validInt32] returns an error at -1 and at 2^31 and none at 0 and at
    2^31 - 1, whatever the field name; it accepts exactly the values from 0 to
    2^31 - 1; and the conversion of the options writes an accepted limit as
    it is and leaves out a rejected one (no clamping). *)
Theorem validInt32_exact_range :
  (forall name, validInt32 (-1) name
                = Some (NewError ("datastore: negative value for " +:+ name)))
  /\ (forall name, validInt32 (2 ^ 31) name
                   = Some (NewError ("datastore: value overflow for " +:+ name)))
  /\ (forall name, validInt32 0 name = None)
  /\ (forall name, validInt32 (2 ^ 31 - 1) name = None)
  /\ (forall value name, validInt32 value name = None <-> 0 <= value <= 2 ^ 31 - 1)
  /\ (forall o dst,
        pbq.Limit (fst (QueryOptions.toProto o dst))
        = match validInt32 (QueryOptions.limit o) "limit" with
          | None => Some (QueryOptions.limit o)
          | Some _ => pbq.Limit dst
          end).
Proof.
  split; [reflexivity|]. split; [reflexivity|]. split; [reflexivity|].
  split; [reflexivity|]. split.
  - intros value name. unfold validInt32, MaxInt32.
    destruct (Z.ltb_spec value 0) as [Hneg|Hpos].
    + split; [discriminate|lia].
    + destruct (Z.gtb_spec value (2 ^ 31 - 1)) as [Hbig|Hsmall].
      * split; [discriminate|lia].
      * split; [lia|reflexivity].
  - intros o dst. unfold QueryOptions.toProto.
    destruct (validInt32 (QueryOptions.limit o) "limit");
      destruct (validInt32 (QueryOptions.offset o) "offset");
      destruct (QueryOptions.startCursor o); destruct (QueryOptions.endCursor o);
      reflexivity.
Qed.

(** ** multiValid *)

Lemma lookup_map {A B : Type} (f : A -> B) (l : list A) :
  forall (i : nat) (x : A), l !! i = Some x -> map f l !! i = Some (f x).
Proof.
  induction l as [|y l IH]; intros [|i] x H; simpl in *; try discriminate.
  - inversion H. reflexivity.
  - apply IH. exact H.
Qed.

Lemma multiValid_all_valid (key : list (option Key)) :
  existsb (fun k => negb (valid k)) key = negb (forallb valid key).
Proof.
  induction key as [|k key IH]; simpl; [reflexivity|].
  rewrite IH. destruct (valid k); reflexivity.
Qed.

Lemma multiValid_fill_slots (key : list (option Key)) :
  forall (i : nat) (pre : ErrMulti),
  length pre = i ->
  multiValid_fill key i (pre ++ replicate (length key) None)
  = pre ++ map slot_of key.
Proof.
  induction key as [|k key IH]; intros i pre Hi; cbn [multiValid_fill length replicate map].
  - reflexivity.
  - assert (E : (if negb (valid k)
                 then <[i := Some ErrInvalidKey]> (pre ++ None :: replicate (length key) None)
                 else pre ++ None :: replicate (length key) None)
                = (pre ++ [slot_of k]) ++ replicate (length key) None).
    { rewrite <- app_assoc. cbn [app]. unfold slot_of.
      destruct (valid k); cbn [negb]; [reflexivity|].
      replace i with (length pre + 0)%nat by lia.
      rewrite insert_app_r. reflexivity. }
    rewrite E, IH by (rewrite length_app; cbn; lia).
    rewrite <- app_assoc. reflexivity.
Qed.

(** C9: [multiValid] returns nil when every key of the batch is valid;
    otherwise it returns a multi-error with one slot for each key, and slot
    [i] holds [ErrInvalidKey] when key [i] is not valid and is nil when it
    is. *)
Theorem multiValid_slots (key : list (option Key)) :
  (forallb valid key = true -> multiValid key = None)
  /\ (forallb valid key = false ->
      exists err : ErrMulti,
        multiValid key = Some err
        /\ length err = length key
        /\ forall (i : nat) (k : option Key),
             key !! i = Some k ->
             err !! i = Some (if valid k then None else Some ErrInvalidKey)).
Proof.
  unfold multiValid. rewrite multiValid_all_valid.
  split; intros H; rewrite H; cbn [negb].
  - reflexivity.
  - pose proof (multiValid_fill_slots key 0 [] eq_refl) as F.
    cbn [app] in F. rewrite F.
    eexists. split; [reflexivity|]. split.
    + apply length_map.
    + intros i k Hk. apply (lookup_map slot_of key i k Hk).
Qed.

(** ** Eq and Equal *)

Lemma differ_false (k o : Key) :
  differ k o = false <->
  kind k = kind o /\ stringID k = stringID o /\ intID k = intID o
  /\ namespace k = namespace o /\ appID k = appID o.
Proof.
  unfold differ. rewrite !orb_false_iff, !negb_false_iff, !String.eqb_eq, Z.eqb_eq.
  tauto.
Qed.

Lemma differ'_differ (k o : Key) : differ' k o = differ k o.
Proof.
  unfold differ, differ'.
  destruct (String.eqb (kind k) (kind o)), (String.eqb (stringID k) (stringID o)),
    (Z.eqb (intID k) (intID o)), (String.eqb (appID k) (appID o)),
    (String.eqb (namespace k) (namespace o)); reflexivity.
Qed.

Lemma Equal_loop_Eq_loop (k : Key) : forall o, Equal_loop k o = Eq_loop k o.
Proof.
  induction k as [a ns kd s i|a ns p kd s i IH] using Key_chain_ind;
    intros [a' ns' [p'|] kd' s' i']; simpl; rewrite differ'_differ;
    try reflexivity.
  rewrite IH. reflexivity.
Qed.

Lemma differ_refl (k : Key) : differ k k = false.
Proof. apply differ_false. tauto. Qed.

Lemma Eq_loop_true (k : Key) : forall o, Eq_loop k o = true <-> k = o.
Proof.
  induction k as [a ns kd s i|a ns p kd s i IH] using Key_chain_ind;
    intros [a' ns' po kd' s' i']; cbn [Eq_loop].
  - destruct (differ _ _) eqn:D.
    + split; [discriminate|]. intros E. rewrite E, differ_refl in D. discriminate.
    + apply differ_false in D. cbn in D. destruct D as (-> & -> & -> & -> & ->).
      destruct po; split; try reflexivity; try discriminate.
  - destruct (differ _ _) eqn:D.
    + split; [discriminate|]. intros E. rewrite E, differ_refl in D. discriminate.
    + apply differ_false in D. cbn in D. destruct D as (-> & -> & -> & -> & ->).
      destruct po as [p'|].
      * rewrite IH. split; [intros ->; reflexivity|intros E; inversion E; reflexivity].
      * split; discriminate.
Qed.

Lemma Eq_true (k o : option Key) : Eq k o = true <-> k = o.
Proof.
  destruct k as [k|], o as [o|]; cbn [Eq].
  - rewrite Eq_loop_true. split; [intros ->; reflexivity|intros E; inversion E; reflexivity].
  - split; discriminate.
  - split; discriminate.
  - split; reflexivity.
Qed.

Lemma Equal_Eq (k o : option Key) : Equal k o = Eq k o.
Proof. destruct k, o; cbn; try reflexivity. apply Equal_loop_Eq_loop. Qed.

Lemma levels_inj (k : Key) : forall o, levels k = levels o -> k = o.
Proof.
  induction k as [a ns kd s i|a ns p kd s i IH] using Key_chain_ind;
    intros [a' ns' [p'|] kd' s' i'] E; cbn in E; inversion E; subst.
  - destruct p' as [? ? [?|] ? ? ?]; discriminate.
  - reflexivity.
  - f_equal. f_equal. apply IH. assumption.
  - destruct p as [? ? [?|] ? ? ?]; discriminate.
Qed.

Lemma levels_length (k : Key) : length (levels k) = depth k.
Proof.
  induction k as [a ns kd s i|a ns p kd s i IH] using Key_chain_ind; cbn;
    [reflexivity|]. f_equal. exact IH.
Qed.

(** C7: two keys with different application IDs are not equal; [Eq] is true
    exactly when the two chains have the same levels, leaf to root, each
    level compared on kind, stringID, intID, appID and namespace; chains of
    different lengths are never equal; and [Equal] of the refined
    implementation decides the same. *)
Theorem Eq_structural (a b : Key) :
  (appID a <> appID b -> Eq (Some a) (Some b) = false)
  /\ (Eq (Some a) (Some b) = true <-> levels a = levels b)
  /\ (depth a <> depth b -> Eq (Some a) (Some b) = false)
  /\ Equal (Some a) (Some b) = Eq (Some a) (Some b).
Proof.
  assert (L : Eq (Some a) (Some b) = true <-> levels a = levels b).
  { rewrite Eq_true. split.
    - intros E. inversion E. reflexivity.
    - intros E. f_equal. apply levels_inj. exact E. }
  split; [|split; [exact L|split]].
  - intros H. destruct (Eq (Some a) (Some b)) eqn:E; [|reflexivity].
    apply Eq_true in E. inversion E. subst. contradiction.
  - intros H. destruct (Eq (Some a) (Some b)) eqn:E; [|reflexivity].
    apply Eq_true in E. inversion E. subst. contradiction.
  - apply Equal_Eq.
Qed.

Lemma Eq_structural_witness :
  Eq (Some key_app1) (Some key_app2) = false
  /\ Eq (Some key_child) (Some key_app1) = false.
Proof.
  split.
  - apply (proj1 (Eq_structural key_app1 key_app2)). discriminate.
  - apply (proj1 (proj2 (proj2 (Eq_structural key_child key_app1)))). discriminate.
Defined.

(** ** Strings *)

(** Strings and their bytes. *)
Lemma to_bytes_of_bytes (l : GoStr.bytes) : GoStr.to_bytes (GoStr.of_bytes l) = l.
Proof. apply list_ascii_of_string_of_list_ascii. Qed.

Lemma of_bytes_to_bytes (s : string) : GoStr.of_bytes (GoStr.to_bytes s) = s.
Proof. apply string_of_list_ascii_of_string. Qed.

Lemma length_to_bytes (s : string) : length (GoStr.to_bytes s) = String.length s.
Proof. induction s as [|c s IH]; cbn; [reflexivity|]. f_equal. exact IH. Qed.

Lemma to_bytes_inj (s t : string) : GoStr.to_bytes s = GoStr.to_bytes t -> s = t.
Proof.
  intros H. rewrite <- (of_bytes_to_bytes s), <- (of_bytes_to_bytes t), H. reflexivity.
Qed.

(** ** Filters *)

(** The parsed operator is a text of the cutset: what [parse] takes for the
    operator is what [TrimRight] has cut off, trimmed of its spaces. *)
Lemma trimRight_split (cut : ascii -> bool) (s : GoStr.bytes) :
  exists t, s = GoStr.trimRight cut s ++ t /\ Forall (fun c => cut c = true) t.
Proof.
  induction s as [|c s (t & E & F)]; cbn [GoStr.trimRight].
  - exists []. split; [reflexivity|constructor].
  - destruct (GoStr.trimRight cut s) as [|d r] eqn:T.
    + cbn [app] in E. subst t. destruct (cut c) eqn:C.
      * exists (c :: s). split; [reflexivity|constructor; assumption].
      * exists s. split; [reflexivity|assumption].
    + exists t. split; [|exact F]. cbn [app]. f_equal. exact E.
Qed.



Lemma trimRight_nil (cut : ascii -> bool) (s : GoStr.bytes) :
  GoStr.trimRight cut s = [] <-> Forall (fun c => cut c = true) s.
Proof.
  induction s as [|c s IH]; cbn [GoStr.trimRight].
  - split; [constructor|reflexivity].
  - destruct (GoStr.trimRight cut s) as [|d r].
    + destruct (cut c) eqn:C.
      * split; [|reflexivity]. intros _. constructor; [exact C|apply IH; reflexivity].
      * split; [discriminate|]. intros F. inversion F; congruence.
    + split; [discriminate|]. intros F. inversion F as [|? ? _ F']; subst.
      apply IH in F'. discriminate.
Qed.

Lemma isEmpty_of_bytes (l : GoStr.bytes) : isEmpty (GoStr.of_bytes l) = true <-> l = [].
Proof.
  rewrite isEmpty_true. destruct l; cbn; split; congruence.
Qed.

(** *** White space at the two ends

    [trimmed] says what [GoStr.TrimSpace] computes, and nothing else does:
    every text has its trimmed text, and it has one only. *)

Lemma forallb_Forall (cut : ascii -> bool) (s : GoStr.bytes) :
  forallb cut s = true <-> Forall (fun c => cut c = true) s.
Proof.
  induction s as [|c s IH]; cbn [forallb].
  - split; [constructor|reflexivity].
  - rewrite andb_true_iff, IH. split.
    + intros [Hc Hs]. constructor; assumption.
    + intros F. inversion F; subst. split; assumption.
Qed.

Lemma trimLeft_all (cut : ascii -> bool) (s : GoStr.bytes) :
  forallb cut s = true -> GoStr.trimLeft cut s = [].
Proof.
  induction s as [|c s IH]; cbn [forallb GoStr.trimLeft]; [reflexivity|].
  intros H. apply andb_prop in H. destruct H as [Hc Hs]. rewrite Hc. apply IH. exact Hs.
Qed.

Lemma trimLeft_unique (cut : ascii -> bool) (l t : GoStr.bytes) :
  forallb cut l = true ->
  (forall c, head t = Some c -> cut c = false) ->
  GoStr.trimLeft cut (l ++ t) = t.
Proof.
  intros Hl Ht. induction l as [|c l IH]; cbn [app].
  - destruct t as [|c t]; [reflexivity|].
    cbn [GoStr.trimLeft]. rewrite (Ht c eq_refl). reflexivity.
  - cbn [forallb] in Hl. apply andb_prop in Hl. destruct Hl as [Hc Hl].
    cbn [GoStr.trimLeft]. rewrite Hc. apply IH. exact Hl.
Qed.

Lemma trimLeft_split (cut : ascii -> bool) (s : GoStr.bytes) :
  exists l, s = l ++ GoStr.trimLeft cut s
            /\ forallb cut l = true
            /\ forall c, head (GoStr.trimLeft cut s) = Some c -> cut c = false.
Proof.
  induction s as [|c s (l & E & F & H)]; cbn [GoStr.trimLeft].
  - exists []. repeat split. intros c [=].
  - destruct (cut c) eqn:C.
    + exists (c :: l). split; [cbn [app]; f_equal; exact E|].
      split; [cbn [forallb]; rewrite C; exact F|exact H].
    + exists []. split; [reflexivity|]. split; [reflexivity|].
      intros d [= <-]. exact C.
Qed.

Lemma trimRight_unique (cut : ascii -> bool) (t r : GoStr.bytes) :
  forallb cut r = true ->
  (forall c, last t = Some c -> cut c = false) ->
  GoStr.trimRight cut (t ++ r) = t.
Proof.
  intros Hr. induction t as [|c t IH]; intros Ht; cbn [app].
  - apply trimRight_nil, forallb_Forall. exact Hr.
  - cbn [GoStr.trimRight]. destruct t as [|d t].
    + cbn [app]. rewrite (proj2 (trimRight_nil cut r)) by (apply forallb_Forall; exact Hr).
      rewrite (Ht c eq_refl). reflexivity.
    + rewrite IH; [reflexivity|]. intros e He. apply Ht.
      rewrite last_cons_cons. exact He.
Qed.

Lemma trimRight_last (cut : ascii -> bool) (s : GoStr.bytes) :
  forall c, last (GoStr.trimRight cut s) = Some c -> cut c = false.
Proof.
  induction s as [|d s IH]; cbn [GoStr.trimRight]; intros c.
  - intros [=].
  - destruct (GoStr.trimRight cut s) as [|e r] eqn:T.
    + destruct (cut d) eqn:C; [intros [=]|]. intros [= <-]. exact C.
    + rewrite last_cons_cons. apply IH.
Qed.

Lemma trimRight_head (cut : ascii -> bool) (s : GoStr.bytes) :
  forall c, head (GoStr.trimRight cut s) = Some c -> head s = Some c.
Proof.
  destruct s as [|d s]; cbn [GoStr.trimRight]; intros c; [intros [=]|].
  destruct (GoStr.trimRight cut s); [destruct (cut d)|]; cbn; congruence.
Qed.

Lemma trimmed_TrimSpace (s : string) (t : GoStr.bytes) :
  trimmed (GoStr.to_bytes s) t -> GoStr.to_bytes (GoStr.TrimSpace s) = t.
Proof.
  intros (l & r & E & Hl & Hr & Hh & Ht).
  unfold GoStr.TrimSpace. rewrite to_bytes_of_bytes, E.
  destruct t as [|c t].
  - cbn [app]. rewrite trimLeft_all; [reflexivity|].
    rewrite forallb_app, Hl, Hr. reflexivity.
  - rewrite trimLeft_unique; [apply trimRight_unique; assumption|exact Hl|].
    intros d [= <-]. apply Hh. reflexivity.
Qed.

Lemma TrimSpace_trimmed (s : string) :
  trimmed (GoStr.to_bytes s) (GoStr.to_bytes (GoStr.TrimSpace s)).
Proof.
  unfold GoStr.TrimSpace. rewrite to_bytes_of_bytes.
  destruct (trimLeft_split GoStr.isSpace (GoStr.to_bytes s)) as (l & El & Fl & Hl).
  destruct (trimRight_split GoStr.isSpace (GoStr.trimLeft GoStr.isSpace (GoStr.to_bytes s)))
    as (r & Er & Fr).
  exists l, r. split; [rewrite <- Er; exact El|]. split; [exact Fl|].
  split; [apply forallb_Forall; exact Fr|]. split.
  - intros c Hc. apply Hl. apply (trimRight_head _ _ _ Hc).
  - apply trimRight_last.
Qed.


(** *** The property and the operator of a filter text *)

(** A trimmed text that is not made of operator characters splits into a
    property, which ends outside them, and a run of them. *)
Lemma operator_split (t : GoStr.bytes) :
  forallb operator_char t = false ->
  exists (property run : GoStr.bytes) (c : ascii),
    t = property ++ run
    /\ last property = Some c /\ operator_char c = false
    /\ forallb operator_char run = true.
Proof.
  intros Hn.
  destruct (trimRight_split operator_char t) as (run & E & F).
  destruct (last (GoStr.trimRight operator_char t)) as [c|] eqn:L.
  - exists (GoStr.trimRight operator_char t), run, c.
    split; [exact E|]. split; [exact L|].
    split; [apply (trimRight_last _ _ _ L)|apply forallb_Forall; exact F].
  - apply last_None in L. apply trimRight_nil, forallb_Forall in L. congruence.
Qed.

(** [parse] on a text by its shape. *)
Lemma parse_no_property (q : queryFilter.t) (t : GoStr.bytes) :
  trimmed (GoStr.to_bytes (queryFilter.filter q)) t ->
  forallb operator_char t = true ->
  exists msg, queryFilter.parse q = (GoStr.of_bytes [], "", Some (NewError msg)).
Proof.
  intros Ht Hc. apply trimmed_TrimSpace in Ht. unfold queryFilter.parse.
  destruct (isEmpty (GoStr.TrimSpace (queryFilter.filter q))) eqn:E1; [eexists; reflexivity|].
  assert (Hp : GoStr.TrimRight (GoStr.TrimSpace (queryFilter.filter q)) " ><=" = GoStr.of_bytes []).
  { unfold GoStr.TrimRight. rewrite Ht. f_equal.
    apply trimRight_nil, forallb_Forall. exact Hc. }
  rewrite Hp. cbn. eexists; reflexivity.
Qed.

Lemma parse_property_operator
  (q : queryFilter.t) (property run : GoStr.bytes) (c : ascii) :
  trimmed (GoStr.to_bytes (queryFilter.filter q)) (property ++ run) ->
  last property = Some c -> operator_char c = false ->
  forallb operator_char run = true ->
  queryFilter.parse q
  = (GoStr.of_bytes property, GoStr.TrimSpace (GoStr.of_bytes run), None).
Proof.
  intros Ht Hl Hc Hr. apply trimmed_TrimSpace in Ht. unfold queryFilter.parse.
  assert (Hne : property <> []) by (intros ->; discriminate Hl).
  destruct (isEmpty (GoStr.TrimSpace (queryFilter.filter q))) eqn:E1.
  { apply isEmpty_true in E1. rewrite E1 in Ht. cbn in Ht.
    symmetry in Ht. apply app_eq_nil in Ht. destruct Ht; contradiction. }
  assert (Hp : GoStr.TrimRight (GoStr.TrimSpace (queryFilter.filter q)) " ><="
               = GoStr.of_bytes property).
  { unfold GoStr.TrimRight. rewrite Ht. f_equal.
    apply trimRight_unique; [exact Hr|]. intros d Hd.
    rewrite Hl in Hd. injection Hd as <-. exact Hc. }
  rewrite Hp.
  destruct (isEmpty (GoStr.of_bytes property)) eqn:E2.
  { apply isEmpty_of_bytes in E2. contradiction. }
  unfold GoStr.from. rewrite Ht, <- length_to_bytes, to_bytes_of_bytes, drop_app_length.
  reflexivity.
Qed.








(** The parser strips the characters of the cutset only: the text [age !=]
    is read as the property [age !] with the operator [=]. *)
Example queryFilter_parse_not_equal :
  queryFilter.parse (queryFilter.mk "age !=" (VInt 18)) = ("age !", "=", None).
Proof. reflexivity. Qed.

(** ** The conversion of a query *)

Lemma toProto_filters_spec (fs : list queryFilter.t) : forall errMulti,
  Query.toProto_filters fs errMulti
  = (map (fun f => fst (queryFilter.toProto f pbq.zero_Filter)) fs,
     (errMulti ++ filter_errors fs)%list).
Proof.
  induction fs as [|f fs IH]; intros errMulti; cbn [Query.toProto_filters].
  - cbn. rewrite app_nil_r. reflexivity.
  - destruct (queryFilter.toProto f pbq.zero_Filter) as [filter_ err] eqn:E.
    rewrite IH. unfold filter_errors. cbn [map flat_map]. rewrite E. cbn [fst snd].
    f_equal. destruct err; cbn [Query.record error_list].
    + rewrite <- app_assoc. reflexivity.
    + reflexivity.
Qed.

Lemma toProto_orders_spec (os : list queryOrder.t) : forall errMulti,
  Query.toProto_orders os errMulti
  = (map (fun o => fst (queryOrder.toProto o pbq.zero_Order)) os,
     (errMulti ++ order_errors os)%list).
Proof.
  induction os as [|o os IH]; intros errMulti; cbn [Query.toProto_orders].
  - cbn. rewrite app_nil_r. reflexivity.
  - destruct (queryOrder.toProto o pbq.zero_Order) as [order_ err] eqn:E.
    rewrite IH. unfold order_errors. cbn [map flat_map]. rewrite E. cbn [fst snd].
    f_equal. destruct err; cbn [Query.record error_list].
    + rewrite <- app_assoc. reflexivity.
    + reflexivity.
Qed.

Lemma as_error_length (errMulti : ErrMulti) (dst : pbq.Query) :
  (if (0 <? length errMulti)%nat then (dst, Some errMulti) else (dst, None))
  = (dst, as_error errMulti).
Proof. destruct errMulti; reflexivity. Qed.

(** The whole of [Query.toProto]: what is written and what is returned. *)
Lemma Query_toProto_spec (st : Store) (q : Query.t) (dst : pbq.Query) :
  Query.toProto st q dst
  = (pbq.mkQuery
       (if isEmpty (Query.kind q) then pbq.Kind dst else Some (Query.kind q))
       (match Query.ancestor q with
        | Some a => Some (keyToProto a)
        | None => pbq.Ancestor dst
        end)
       (if slice.is_nil (Query.filter q) then pbq.Filter dst
        else map (fun f => fst (queryFilter.toProto f pbq.zero_Filter))
                 (Query.filter_elems st q))
       (if slice.is_nil (Query.order q) then pbq.Order dst
        else map (fun o => fst (queryOrder.toProto o pbq.zero_Order))
                 (Query.order_elems st q))
       (pbq.Limit dst) (pbq.Offset dst) (pbq.KeysOnly dst) (pbq.Compile dst)
       (pbq.CompiledCursor dst) (pbq.EndCompiledCursor dst),
     as_error
       ((if isEmpty (Query.kind q)
         then [Some (NewError "datastore: empty query kind")] else [])
        ++ (if slice.is_nil (Query.filter q) then []
            else filter_errors (Query.filter_elems st q))
        ++ (if slice.is_nil (Query.order q) then []
            else order_errors (Query.order_elems st q)))%list).
Proof.
  unfold Query.toProto. destruct dst as [K A F O L Of KO C CC EC].
  destruct (isEmpty (Query.kind q)); cbn [negb];
    destruct (Query.ancestor q) as [a|];
    destruct (slice.is_nil (Query.filter q)); cbn [negb];
    destruct (slice.is_nil (Query.order q)); cbn [negb];
    rewrite ?toProto_filters_spec, ?toProto_orders_spec;
    rewrite as_error_length; cbn; rewrite ?app_nil_r; reflexivity.
Qed.

(** The whole of [QueryOptions.toProto]. *)
Lemma QueryOptions_toProto_spec (o : QueryOptions.t) (dst : pbq.Query) :
  QueryOptions.toProto o dst
  = (pbq.mkQuery (pbq.Kind dst) (pbq.Ancestor dst) (pbq.Filter dst) (pbq.Order dst)
       (match validInt32 (QueryOptions.limit o) "limit" with
        | None => Some (QueryOptions.limit o)
        | Some _ => pbq.Limit dst
        end)
       (match validInt32 (QueryOptions.offset o) "offset" with
        | None => Some (QueryOptions.offset o)
        | Some _ => pbq.Offset dst
        end)
       (Some (QueryOptions.keysOnly o))
       (Some (QueryOptions.compile o))
       (match QueryOptions.startCursor o with
        | Some c => compiledCursor c
        | None => pbq.CompiledCursor dst
        end)
       (match QueryOptions.endCursor o with
        | Some c => compiledCursor c
        | None => pbq.EndCompiledCursor dst
        end),
     as_error (error_list (validInt32 (QueryOptions.limit o) "limit")
               ++ error_list (validInt32 (QueryOptions.offset o) "offset"))%list).
Proof.
  unfold QueryOptions.toProto. destruct dst as [K A F O L Of KO C CC EC].
  destruct (validInt32 (QueryOptions.limit o) "limit");
    destruct (validInt32 (QueryOptions.offset o) "offset");
    destruct (QueryOptions.startCursor o); destruct (QueryOptions.endCursor o);
    reflexivity.
Qed.

Lemma error_list_nil (err : error) : error_list err = [] <-> err = None.
Proof. destruct err; cbn; split; congruence. Qed.

Lemma filter_errors_nil (fs : list queryFilter.t) :
  filter_errors fs = []
  <-> Forall (fun f => snd (queryFilter.toProto f pbq.zero_Filter) = None) fs.
Proof.
  unfold filter_errors. induction fs as [|f fs IH]; cbn [flat_map].
  - split; [constructor|reflexivity].
  - split.
    + intros H. apply app_eq_nil in H. destruct H as [H1 H2].
      constructor; [apply error_list_nil; exact H1|apply IH; exact H2].
    + intros H. inversion H as [|? ? H1 H2]; subst.
      apply error_list_nil in H1. rewrite H1. apply IH. exact H2.
Qed.

Lemma order_errors_nil (os : list queryOrder.t) :
  order_errors os = []
  <-> Forall (fun o => snd (queryOrder.toProto o pbq.zero_Order) = None) os.
Proof.
  unfold order_errors. induction os as [|o os IH]; cbn [flat_map].
  - split; [constructor|reflexivity].
  - split.
    + intros H. apply app_eq_nil in H. destruct H as [H1 H2].
      constructor; [apply error_list_nil; exact H1|apply IH; exact H2].
    + intros H. inversion H as [|? ? H1 H2]; subst.
      apply error_list_nil in H1. rewrite H1. apply IH. exact H2.
Qed.

Lemma as_error_None (errMulti : ErrMulti) : as_error errMulti = None <-> errMulti = [].
Proof. destruct errMulti; cbn; split; congruence. Qed.

(** C2, as the code has it: the conversion of a query returns nil exactly
    when the kind is not empty and every filter and every order converts,
    and otherwise the composite error of all the faults, in order; in both
    cases the destination has been written: the kind when it is not empty,
    the ancestor when it is set, and one slot for each filter and each
    order, holding what the conversion of that filter or order left.  The
    conversion of the options returns nil exactly when the limit and the
    offset are in range, and otherwise the composite error of the two; it
    leaves an invalid one of them out, and writes keysOnly and compile in
    any case. *)
Theorem toProto_outcome
  (st : Store) (q : Query.t) (o : QueryOptions.t) (dst : pbq.Query) :
  let r := Query.toProto st q dst in
  let r' := QueryOptions.toProto o dst in
  (snd r = None <->
     Query.kind q <> ""
     /\ (slice.is_nil (Query.filter q) = false ->
         Forall (fun f => snd (queryFilter.toProto f pbq.zero_Filter) = None)
                (Query.filter_elems st q))
     /\ (slice.is_nil (Query.order q) = false ->
         Forall (fun o => snd (queryOrder.toProto o pbq.zero_Order) = None)
                (Query.order_elems st q)))
  /\ snd r = as_error
       ((if isEmpty (Query.kind q)
         then [Some (NewError "datastore: empty query kind")] else [])
        ++ (if slice.is_nil (Query.filter q) then []
            else filter_errors (Query.filter_elems st q))
        ++ (if slice.is_nil (Query.order q) then []
            else order_errors (Query.order_elems st q)))%list
  /\ pbq.Kind (fst r)
     = (if isEmpty (Query.kind q) then pbq.Kind dst else Some (Query.kind q))
  /\ pbq.Ancestor (fst r)
     = match Query.ancestor q with
       | Some a => Some (Key_toProto a)
       | None => pbq.Ancestor dst
       end
  /\ pbq.Filter (fst r)
     = (if slice.is_nil (Query.filter q) then pbq.Filter dst
        else map (fun f => fst (queryFilter.toProto f pbq.zero_Filter))
                 (Query.filter_elems st q))
  /\ pbq.Order (fst r)
     = (if slice.is_nil (Query.order q) then pbq.Order dst
        else map (fun o => fst (queryOrder.toProto o pbq.zero_Order))
                 (Query.order_elems st q))
  /\ (snd r' = None <->
       0 <= QueryOptions.limit o <= MaxInt32 /\ 0 <= QueryOptions.offset o <= MaxInt32)
  /\ snd r' = as_error (error_list (validInt32 (QueryOptions.limit o) "limit")
                        ++ error_list (validInt32 (QueryOptions.offset o) "offset"))%list
  /\ pbq.Limit (fst r')
     = match validInt32 (QueryOptions.limit o) "limit" with
       | None => Some (QueryOptions.limit o)
       | Some _ => pbq.Limit dst
       end
  /\ pbq.Offset (fst r')
     = match validInt32 (QueryOptions.offset o) "offset" with
       | None => Some (QueryOptions.offset o)
       | Some _ => pbq.Offset dst
       end
  /\ pbq.KeysOnly (fst r') = Some (QueryOptions.keysOnly o)
  /\ pbq.Compile (fst r') = Some (QueryOptions.compile o).
Proof.
  cbn zeta. rewrite Query_toProto_spec, QueryOptions_toProto_spec. cbn [fst snd].
  split; [|split; [reflexivity|split; [reflexivity|split; [reflexivity|
    split; [reflexivity|split; [reflexivity|split; [|repeat split; reflexivity]]]]]]].
  2: { rewrite as_error_None. unfold validInt32.
       destruct (Z.ltb_spec (QueryOptions.limit o) 0);
         destruct (Z.gtb_spec (QueryOptions.limit o) MaxInt32);
         destruct (Z.ltb_spec (QueryOptions.offset o) 0);
         destruct (Z.gtb_spec (QueryOptions.offset o) MaxInt32);
         cbn [error_list app]; split; try discriminate; try reflexivity; lia. }
  rewrite as_error_None. split.
  - intros H. apply app_eq_nil in H. destruct H as [H1 H2].
    apply app_eq_nil in H2. destruct H2 as [H2 H3].
    split; [|split].
    + apply isEmpty_false. destruct (isEmpty (Query.kind q)); [discriminate|reflexivity].
    + intros Hn. rewrite Hn in H2. apply filter_errors_nil. exact H2.
    + intros Hn. rewrite Hn in H3. apply order_errors_nil. exact H3.
  - intros (H1 & H2 & H3). apply isEmpty_false in H1. rewrite H1. cbn [app].
    destruct (slice.is_nil (Query.filter q)); destruct (slice.is_nil (Query.order q));
      cbn [app]; rewrite ?app_nil_r.
    + reflexivity.
    + apply order_errors_nil. apply H3. reflexivity.
    + apply filter_errors_nil. apply H2. reflexivity.
    + rewrite (proj2 (filter_errors_nil _) (H2 eq_refl)).
      apply order_errors_nil. apply H3. reflexivity.
Qed.

(** C2, as stated, fails: the conversion of the query [Person] with the filter
    of empty text reports an error and has written the kind and a filter
    slot; the conversion of the options with limit -1 reports an error and
    has written the offset, keysOnly and compile. *)
Lemma toProto_writes_on_error :
  let r := Query.toProto (snd empty_filter_query) (fst empty_filter_query) pbq.zero_Query in
  let r' := QueryOptions.toProto negative_limit_options pbq.zero_Query in
  ~ ((snd r <> None -> fst r = pbq.zero_Query)
     \/ (snd r' <> None -> fst r' = pbq.zero_Query)).
Proof.
  cbn zeta. intros [H|H].
  - assert (E : pbq.Kind (fst (Query.toProto (snd empty_filter_query)
                                 (fst empty_filter_query) pbq.zero_Query))
                = pbq.Kind pbq.zero_Query)
      by (rewrite H; [reflexivity|discriminate]).
    discriminate E.
  - assert (E : pbq.KeysOnly (fst (QueryOptions.toProto negative_limit_options pbq.zero_Query))
                = pbq.KeysOnly pbq.zero_Query)
      by (rewrite H; [reflexivity|discriminate]).
    discriminate E.
Qed.

(** C3, as the code has it: the conversion of a query of a non-empty kind,
    without orders, whose only filter has the empty text, reports one error,
    the one of an invalid filter, in its accumulator; the conversion of
    options with limit -1 and a valid offset reports one error, the negative
    limit, in an accumulator of its own. *)
Theorem toProto_empty_filter_negative_limit
  (st : Store) (q : Query.t) (o : QueryOptions.t) (v : Value) (dst dst' : pbq.Query) :
  Query.kind q <> "" ->
  slice.is_nil (Query.filter q) = false ->
  Query.filter_elems st q = [queryFilter.mk "" v] ->
  slice.is_nil (Query.order q) = true ->
  QueryOptions.limit o = -1 ->
  validInt32 (QueryOptions.offset o) "offset" = None ->
  snd (Query.toProto st q dst)
  = Some [Some (NewError "datastore: invalid query filter: ")]
  /\ snd (QueryOptions.toProto o dst')
     = Some [Some (NewError "datastore: negative value for limit")].
Proof.
  intros Hk Hf He Ho Hl Hoff.
  rewrite Query_toProto_spec, QueryOptions_toProto_spec. cbn [fst snd].
  apply isEmpty_false in Hk. rewrite Hk, Hf, He, Ho, Hl, Hoff. split; reflexivity.
Qed.

Lemma toProto_empty_filter_negative_limit_witness :
  snd (Query.toProto (snd empty_filter_query) (fst empty_filter_query) pbq.zero_Query)
  = Some [Some (NewError "datastore: invalid query filter: ")]
  /\ snd (QueryOptions.toProto negative_limit_options pbq.zero_Query)
     = Some [Some (NewError "datastore: negative value for limit")].
Proof.
  apply (toProto_empty_filter_negative_limit
           (snd empty_filter_query) (fst empty_filter_query)
           negative_limit_options (VInt 0)).
  - discriminate.
  - reflexivity.
  - reflexivity.
  - reflexivity.
  - reflexivity.
  - reflexivity.
Defined.

(** C3, as stated, fails: neither the accumulator of the query, nor that of
    the options, nor the two put together hold the error of an empty filter
    property beside the error of a negative limit. *)
Lemma no_shared_accumulator :
  let rq := Query.toProto (snd empty_filter_query) (fst empty_filter_query) pbq.zero_Query in
  let ro := QueryOptions.toProto negative_limit_options pbq.zero_Query in
  ~ exists errMulti : ErrMulti,
      (snd rq = Some errMulti
       \/ snd ro = Some errMulti
       \/ exists e1 e2, snd rq = Some e1 /\ snd ro = Some e2 /\ errMulti = e1 ++ e2)
      /\ In (Some (NewError "datastore: empty query filter property")) errMulti
      /\ In (Some (NewError "datastore: negative value for limit")) errMulti.
Proof.
  cbn zeta. intros (errMulti & [H|[H|(e1 & e2 & H & H' & ->)]] & H1 & H2).
  - vm_compute in H. inversion H; subst. cbn in H2. destruct H2 as [H2|[]].
    discriminate H2.
  - vm_compute in H. inversion H; subst. cbn in H1. destruct H1 as [H1|[]].
    discriminate H1.
  - vm_compute in H, H'. inversion H; inversion H'; subst. cbn in H1.
    destruct H1 as [H1|[H1|[]]]; discriminate.
Qed.

(** ** The sample query *)

(** C5, as the code has it: the query of kind [Person] with the filter
    [age >=] of value 18 and the order [-age] converts without error to a
    wire query with one filter, of operator GREATER_THAN_OR_EQUAL on the
    property [age], and one order, DESCENDING on [age]; its display string
    keeps the text of the filter as it was given, with its space. *)
Theorem person_query_conversion :
  let q := fst person_query in
  let st := snd person_query in
  let r := Query.toProto st q pbq.zero_Query in
  snd r = None
  /\ pbq.Kind (fst r) = Some "Person"
  /\ pbq.Filter (fst r)
     = [pbq.mkFilter (Some pbq.GREATER_THAN_OR_EQUAL)
          [Some (pbq.mkProperty "age" (pbq.Int64Value 18) false)]]
  /\ pbq.Order (fst r) = [pbq.mkOrder (Some "age") (Some pbq.DESCENDING)]
  /\ Query.String_ st q
     = Some "SELECT * FROM Person WHERE age >=18 ORDER BY age DESC".
Proof. cbn zeta. repeat split; vm_compute; reflexivity. Qed.

(** C5, as stated, fails on the display string. *)
Lemma person_query_display :
  Query.String_ (snd person_query) (fst person_query)
  <> Some "SELECT * FROM Person WHERE age>=18 ORDER BY age DESC".
Proof. vm_compute. discriminate. Qed.

(** ** Slices and the builders *)

Section SliceFacts.

Context {A : Type} (zero : A).

(** With spare capacity, two appends to the same slice write the same cell
    of the same array: the slice returned by the first holds, after the
    second, the element of the second. *)
Lemma append_spare_capacity (h : slice.heap A) (s : slice.t) (p : nat) (arr : list A) (x y : A) :
  slice.ptr s = Some p ->
  h !! p = Some arr ->
  (slice.len s < slice.cap s)%nat ->
  (slice.len s < length arr)%nat ->
  let r1 := slice.append zero h s x in
  let r2 := slice.append zero (snd r1) s y in
  slice.elems (snd r1) (fst r1) = (slice.elems h s ++ [x])%list
  /\ slice.elems (snd r2) (fst r1) = (slice.elems h s ++ [y])%list.
Proof.
  intros Hp Harr Hcap Hlen. cbn zeta. unfold slice.append.
  apply Nat.ltb_lt in Hcap. rewrite Hcap, Hp. cbn [fst snd].
  unfold slice.elems, slice.array. cbn [slice.ptr slice.len]. rewrite Hp.
  rewrite !list_lookup_alter_eq, Harr.
  cbn [fmap option_fmap option_map default from_option]. unfold id.
  split.
  - rewrite (take_S_r _ _ x) by (apply list_lookup_insert_eq; exact Hlen).
    rewrite take_insert_ge by lia. reflexivity.
  - rewrite (take_S_r _ _ y)
      by (apply list_lookup_insert_eq; rewrite length_insert; exact Hlen).
    rewrite !take_insert_ge by lia. reflexivity.
Qed.

(** Without spare capacity every append allocates: the slice returned by the
    first append is not touched by the second. *)
Lemma append_no_capacity (h : slice.heap A) (s : slice.t) (x y : A) :
  (slice.cap s <= slice.len s)%nat ->
  (slice.len s <= length (slice.array h s))%nat ->
  match slice.ptr s with Some p => (p < length h)%nat | None => True end ->
  let r1 := slice.append zero h s x in
  let r2 := slice.append zero (snd r1) s y in
  slice.elems (snd r1) (fst r1) = (slice.elems h s ++ [x])%list
  /\ slice.elems (snd r2) (fst r1) = (slice.elems h s ++ [x])%list.
Proof.
  intros Hcap Hlen Hp. cbn zeta. unfold slice.append.
  assert (Hc : (slice.len s <? slice.cap s)%nat = false) by (apply Nat.ltb_ge; exact Hcap).
  rewrite Hc. cbn [fst snd].
  assert (Hl : length (slice.elems h s) = slice.len s).
  { unfold slice.elems. rewrite length_take. lia. }
  assert (Hs : forall k, slice.elems (h ++ k) s = slice.elems h s).
  { intros k. unfold slice.elems, slice.array.
    destruct (slice.ptr s) as [p|]; [|reflexivity].
    rewrite lookup_app_l by exact Hp. reflexivity. }
  rewrite Hs.
  assert (Ht : forall k : list A,
             take (S (slice.len s)) (slice.elems h s ++ [x] ++ k)
             = (slice.elems h s ++ [x])%list).
  { intros k. rewrite app_assoc. apply take_app_length'.
    rewrite length_app, Hl. cbn. lia. }
  split.
  - unfold slice.elems at 1. unfold slice.array. cbn [slice.ptr slice.len].
    rewrite list_lookup_middle by reflexivity.
    cbn [default from_option]. unfold id. apply Ht.
  - unfold slice.elems at 1. unfold slice.array. cbn [slice.ptr slice.len].
    rewrite lookup_app_l by (rewrite length_app; cbn; lia).
    rewrite list_lookup_middle by reflexivity.
    cbn [default from_option]. unfold id. apply Ht.
Qed.

End SliceFacts.

(** C4 fails on the code: [append] writes into the backing array that the
    receiver shares with the query returned by an earlier call.  After
    three filters the slice has length 3 and capacity 4; [q1 := q.Filter("d
    =", 4)] and then [q2 := q.Filter("e =", 5)] leave [q1] with the filters
    of [q] plus [("e =", 5)], where C4 has [("d =", 4)]. *)
Theorem Filter_shared_backing_array :
  let q := fst three_filters in
  let st := snd three_filters in
  let r1 := Query.Filter q "d =" (VInt 4) st in
  let r2 := Query.Filter q "e =" (VInt 5) (snd r1) in
  slice.len (Query.filter q) = 3%nat
  /\ slice.cap (Query.filter q) = 4%nat
  /\ Query.filter_elems (snd r1) (fst r1)
     = (Query.filter_elems st q ++ [queryFilter.mk "d =" (VInt 4)])%list
  /\ Query.filter_elems (snd r2) (fst r1)
     = (Query.filter_elems st q ++ [queryFilter.mk "e =" (VInt 5)])%list
  /\ Query.filter_elems (snd r2) (fst r1)
     <> (Query.filter_elems st q ++ [queryFilter.mk "d =" (VInt 4)])%list.
Proof.
  cbn zeta. repeat split; try (vm_compute; reflexivity).
  vm_compute. discriminate.
Qed.

(** The two cases of [Filter] called twice on one query [q]: with spare
    capacity in the filter slice of [q] the query returned first sees the
    second filter in place of its own; without, it keeps its own. *)
Lemma Filter_twice_spare (st : Store) (q : Query.t) (p : nat) (arr : list queryFilter.t)
  (a b : string) (x y : Value) :
  slice.ptr (Query.filter q) = Some p ->
  filters st !! p = Some arr ->
  (slice.len (Query.filter q) < slice.cap (Query.filter q))%nat ->
  (slice.len (Query.filter q) < length arr)%nat ->
  let r1 := Query.Filter q a x st in
  let r2 := Query.Filter q b y (snd r1) in
  Query.filter_elems (snd r2) (fst r1)
  = (Query.filter_elems st q ++ [queryFilter.mk b y])%list.
Proof.
  intros Hp Harr Hcap Hlen. cbn zeta. unfold Query.Filter, Query.filter_elems.
  pose proof (append_spare_capacity Query.zero_filter (filters st) (Query.filter q) p arr
                (queryFilter.mk a x) (queryFilter.mk b y) Hp Harr Hcap Hlen) as [_ H].
  cbn zeta in H.
  destruct (slice.append Query.zero_filter (filters st) (Query.filter q) (queryFilter.mk a x))
    as [s1 h1]. cbn [fst snd filters Query.filter] in *.
  destruct (slice.append Query.zero_filter h1 (Query.filter q) (queryFilter.mk b y))
    as [s2 h2]. cbn [fst snd filters Query.filter] in *. exact H.
Qed.

Lemma Filter_twice_full (st : Store) (q : Query.t) (a b : string) (x y : Value) :
  (slice.cap (Query.filter q) <= slice.len (Query.filter q))%nat ->
  (slice.len (Query.filter q) <= length (slice.array (filters st) (Query.filter q)))%nat ->
  match slice.ptr (Query.filter q) with
  | Some p => (p < length (filters st))%nat
  | None => True
  end ->
  let r1 := Query.Filter q a x st in
  let r2 := Query.Filter q b y (snd r1) in
  Query.filter_elems (snd r2) (fst r1)
  = (Query.filter_elems st q ++ [queryFilter.mk a x])%list.
Proof.
  intros Hcap Hlen Hp. cbn zeta. unfold Query.Filter, Query.filter_elems.
  pose proof (append_no_capacity Query.zero_filter (filters st) (Query.filter q)
                (queryFilter.mk a x) (queryFilter.mk b y) Hcap Hlen Hp) as [_ H].
  cbn zeta in H.
  destruct (slice.append Query.zero_filter (filters st) (Query.filter q) (queryFilter.mk a x))
    as [s1 h1]. cbn [fst snd filters Query.filter] in *.
  destruct (slice.append Query.zero_filter h1 (Query.filter q) (queryFilter.mk b y))
    as [s2 h2]. cbn [fst snd filters Query.filter] in *. exact H.
Qed.

(** The same for [Order]. *)
Lemma Order_twice_spare (st : Store) (q : Query.t) (p : nat) (arr : list queryOrder.t)
  (a b : string) :
  slice.ptr (Query.order q) = Some p ->
  orders st !! p = Some arr ->
  (slice.len (Query.order q) < slice.cap (Query.order q))%nat ->
  (slice.len (Query.order q) < length arr)%nat ->
  let r1 := Query.Order q a st in
  let r2 := Query.Order q b (snd r1) in
  Query.order_elems (snd r2) (fst r1) = Query.order_elems st q ++ [b].
Proof.
  intros Hp Harr Hcap Hlen. cbn zeta. unfold Query.Order, Query.order_elems.
  pose proof (append_spare_capacity Query.zero_order (orders st) (Query.order q) p arr
                a b Hp Harr Hcap Hlen) as [_ H].
  cbn zeta in H.
  destruct (slice.append Query.zero_order (orders st) (Query.order q) a) as [s1 h1].
  cbn [fst snd orders Query.order] in *.
  destruct (slice.append Query.zero_order h1 (Query.order q) b) as [s2 h2].
  cbn [fst snd orders Query.order] in *. exact H.
Qed.

(** ** Base64 *)

Lemma decodeChar_encodeChar (s : base64.sextet) :
  base64.decodeChar (base64.encodeChar s) = Some s.
Proof.
  destruct s as [[[[[a b] c] d] e] f].
  destruct a, b, c, d, e, f; vm_compute; reflexivity.
Qed.

Lemma encodeChar_not_pad (s : base64.sextet) :
  Ascii.eqb (base64.encodeChar s) base64.pad = false.
Proof.
  destruct s as [[[[[a b] c] d] e] f].
  destruct a, b, c, d, e, f; vm_compute; reflexivity.
Qed.

Lemma join4_split3 (x y z : ascii) :
  let '(a, b, c, d) := base64.split3 x y z in base64.join4 a b c d = (x, y, z).
Proof. destruct x, y, z. reflexivity. Qed.

Lemma quantum_full (x y z : ascii) :
  let '(a, b, c, d) := base64.split3 x y z in
  base64.quantum (base64.encodeChar a) (base64.encodeChar b)
                 (base64.encodeChar c) (base64.encodeChar d) 4
  = Some [x; y; z].
Proof.
  pose proof (join4_split3 x y z) as J.
  destruct (base64.split3 x y z) as [[[a b] c] d].
  unfold base64.quantum. rewrite !decodeChar_encodeChar, J. reflexivity.
Qed.

Lemma DecodeString_quantum (a b c d : ascii) (rest : GoStr.bytes) :
  Ascii.eqb c base64.pad = false ->
  Ascii.eqb d base64.pad = false ->
  base64.DecodeString (a :: b :: c :: d :: rest)
  = match base64.quantum a b c d 4, base64.DecodeString rest with
    | Some q, Some r => Some (q ++ r)%list
    | _, _ => None
    end.
Proof.
  intros Hc Hd. destruct rest as [|e rest].
  - cbn [base64.DecodeString]. rewrite Hc, Hd.
    destruct (base64.quantum a b c d 4); [rewrite app_nil_r|]; reflexivity.
  - reflexivity.
Qed.

(** Decoding undoes encoding. *)
Lemma DecodeString_EncodeToString (src : GoStr.bytes) :
  base64.DecodeString (base64.EncodeToString src) = Some src.
Proof.
  induction src as [|x|x y|x y z rest IH] using list_ind3.
  - reflexivity.
  - destruct x as [x0 x1 x2 x3 x4 x5 x6 x7].
    cbn [base64.EncodeToString base64.split3 zero base64.DecodeString].
    rewrite Ascii.eqb_refl. unfold base64.quantum.
    rewrite !decodeChar_encodeChar. reflexivity.
  - destruct x as [x0 x1 x2 x3 x4 x5 x6 x7], y as [y0 y1 y2 y3 y4 y5 y6 y7].
    cbn [base64.EncodeToString base64.split3 zero base64.DecodeString].
    rewrite encodeChar_not_pad, Ascii.eqb_refl. unfold base64.quantum.
    rewrite !decodeChar_encodeChar. reflexivity.
  - pose proof (quantum_full x y z) as Q.
    cbn [base64.EncodeToString].
    destruct (base64.split3 x y z) as [[[a b] c] d].
    rewrite DecodeString_quantum by apply encodeChar_not_pad.
    rewrite Q, IH. reflexivity.
Qed.

Lemma trimRight_keep (cut : ascii -> bool) (c : ascii) (r : GoStr.bytes) :
  cut c = false -> GoStr.trimRight cut (c :: r) = c :: GoStr.trimRight cut r.
Proof.
  intros H. cbn [GoStr.trimRight]. rewrite H.
  destruct (GoStr.trimRight cut r); reflexivity.
Qed.

Lemma inCutset_pad (c : ascii) : GoStr.inCutset "=" c = Ascii.eqb c base64.pad.
Proof. cbn. apply orb_false_r. Qed.

Lemma repad_bytes_quantum (a b c d : ascii) (l : GoStr.bytes) :
  repad_bytes (a :: b :: c :: d :: l) = a :: b :: c :: d :: repad_bytes l.
Proof.
  unfold repad_bytes. cbn [length].
  replace (S (S (S (S (length l)))) mod 4)%nat with (length l mod 4)%nat.
  - destruct (negb (length l mod 4 =? 0)%nat); reflexivity.
  - change (S (S (S (S (length l))))) with (4 + length l)%nat.
    rewrite <- (Nat.Div0.add_mod_idemp_l 4 (length l) 4). reflexivity.
Qed.

(** Stripping the padding and adding it again gives the encoding back. *)
Lemma repad_trimRight_EncodeToString (src : GoStr.bytes) :
  repad_bytes (GoStr.trimRight (GoStr.inCutset "=") (base64.EncodeToString src))
  = base64.EncodeToString src.
Proof.
  assert (K : forall s, GoStr.inCutset "=" (base64.encodeChar s) = false)
    by (intros s; rewrite inCutset_pad; apply encodeChar_not_pad).
  induction src as [|x|x y|x y z rest IH] using list_ind3.
  - reflexivity.
  - cbn [base64.EncodeToString].
    destruct (base64.split3 x zero zero) as [[[a b] c] d].
    rewrite !trimRight_keep by apply K. reflexivity.
  - cbn [base64.EncodeToString].
    destruct (base64.split3 x y zero) as [[[a b] c] d].
    rewrite !trimRight_keep by apply K. reflexivity.
  - cbn [base64.EncodeToString].
    destruct (base64.split3 x y z) as [[[a b] c] d].
    rewrite !trimRight_keep by apply K.
    rewrite repad_bytes_quantum, IH. reflexivity.
Qed.

Lemma to_bytes_append (s t : string) :
  GoStr.to_bytes (s +:+ t) = GoStr.to_bytes s ++ GoStr.to_bytes t.
Proof.
  induction s as [|c s IH]; [reflexivity|].
  change (String c s +:+ t) with (String c (s +:+ t)).
  cbn [GoStr.to_bytes list_ascii_of_string app]. f_equal. exact IH.
Qed.

Lemma to_bytes_Repeat_pad (n : nat) :
  GoStr.to_bytes (GoStr.Repeat "=" n) = replicate n base64.pad.
Proof.
  induction n as [|n IH]; [reflexivity|].
  cbn [GoStr.Repeat]. rewrite to_bytes_append, IH. reflexivity.
Qed.

Lemma to_bytes_repad (s : string) :
  GoStr.to_bytes (repad s) = repad_bytes (GoStr.to_bytes s).
Proof.
  unfold repad, repad_bytes. rewrite length_to_bytes.
  destruct (negb (String.length s mod 4 =? 0)%nat); [|reflexivity].
  rewrite to_bytes_append, to_bytes_Repeat_pad. reflexivity.
Qed.

(** What [DecodeKey] decodes is what [Encode] encoded. *)
Lemma base64_roundtrip (b : GoStr.bytes) :
  base64.DecodeString
    (GoStr.to_bytes
       (repad (GoStr.TrimRight (GoStr.of_bytes (base64.EncodeToString b)) "=")))
  = Some b.
Proof.
  rewrite to_bytes_repad. unfold GoStr.TrimRight.
  rewrite !to_bytes_of_bytes, repad_trimRight_EncodeToString.
  apply DecodeString_EncodeToString.
Qed.

(** ** The wire format *)

Lemma put_varint_cons (fuel : nat) (n : N) :
  exists c r, proto.put_varint (S fuel) n = c :: r.
Proof.
  cbn [proto.put_varint]. destruct (n <? 128)%N; eauto.
Qed.

Lemma put_varint_S (fuel : nat) (n : N) :
  proto.put_varint (S fuel) n
  = if (n <? 128)%N then [ascii_of_N n]
    else ascii_of_N (128 + n mod 128) :: proto.put_varint fuel (n / 128).
Proof. reflexivity. Qed.

Lemma DecodeVarint_put_varint (fuel : nat) : forall (n : N) (rest : GoStr.bytes),
  (n < 2 ^ N.of_nat fuel)%N ->
  proto.DecodeVarint (proto.put_varint (S fuel) n ++ rest) = Some (n, rest).
Proof.
  induction fuel as [|fuel IH]; intros n rest Hn; rewrite put_varint_S.
  - change (2 ^ N.of_nat 0)%N with 1%N in Hn.
    assert (n = 0%N) by lia. subst. reflexivity.
  - destruct (N.ltb_spec n 128) as [Hlt|Hge].
    + cbn [app proto.DecodeVarint]. rewrite N_ascii_embedding by lia.
      apply N.ltb_lt in Hlt. rewrite Hlt. reflexivity.
    + cbn [app proto.DecodeVarint].
      assert (Hm : (n mod 128 < 128)%N) by (apply N.mod_lt; discriminate).
      assert (Hd : (n = 128 * (n / 128) + n mod 128)%N)
        by (apply N.div_mod; discriminate).
      assert (Hq : (n / 128 < 2 ^ N.of_nat fuel)%N).
      { rewrite Nat2N.inj_succ, N.pow_succ_r' in Hn.
        apply N.Div0.div_lt_upper_bound. lia. }
      revert Hm Hd Hq. generalize (n mod 128)%N (n / 128)%N. intros m q Hm Hd Hq.
      rewrite N_ascii_embedding by lia.
      assert (Hb : (128 + m <? 128)%N = false) by (apply N.ltb_ge; lia).
      rewrite Hb, (IH q rest Hq). f_equal. f_equal. lia.
Qed.

Lemma DecodeVarint_EncodeVarint (n : N) (rest : GoStr.bytes) :
  proto.DecodeVarint (proto.EncodeVarint n ++ rest) = Some (n, rest).
Proof.
  unfold proto.EncodeVarint. apply DecodeVarint_put_varint.
  rewrite N2Nat.id. apply N.size_gt.
Qed.

Lemma DecodeVarint_key (num wt : N) (rest : GoStr.bytes) :
  proto.DecodeVarint (proto.key num wt ++ rest) = Some (num * 8 + wt, rest)%N.
Proof. apply DecodeVarint_EncodeVarint. Qed.

Lemma key_cons (num wt : N) : exists c r, proto.key num wt = c :: r.
Proof. apply put_varint_cons. Qed.

Lemma encode_field_cons (f : proto.field) : exists c r, proto.encode_field f = c :: r.
Proof.
  destruct f as [num v|num b|num|num]; cbn [proto.encode_field].
  - destruct (key_cons num 0) as (c & r & ->). cbn [app]. eauto.
  - destruct (key_cons num 2) as (c & r & ->). cbn [app]. eauto.
  - apply key_cons.
  - apply key_cons.
Qed.

Lemma decode_fields_step (fuel : nat) (c : ascii) (r : GoStr.bytes) :
  proto.decode_fields (S fuel) (c :: r)
  = match proto.DecodeVarint (c :: r) with
    | None => None
    | Some (k, rest) =>
        let num := (k / 8)%N in
        match (k mod 8)%N with
        | 0%N =>
            match proto.DecodeVarint rest with
            | Some (v, rest') =>
                option_map (cons (proto.Varint num v)) (proto.decode_fields fuel rest')
            | None => None
            end
        | 2%N =>
            match proto.DecodeVarint rest with
            | Some (n, rest') =>
                let n' := N.to_nat n in
                if (n' <=? length rest')%nat then
                  option_map (cons (proto.Bytes num (take n' rest')))
                             (proto.decode_fields fuel (drop n' rest'))
                else None
            | None => None
            end
        | 3%N => option_map (cons (proto.StartGroup num)) (proto.decode_fields fuel rest)
        | 4%N => option_map (cons (proto.EndGroup num)) (proto.decode_fields fuel rest)
        | _ => None
        end
    end.
Proof. reflexivity. Qed.

Lemma key_div_mod (num wt : N) :
  (wt < 8)%N -> ((num * 8 + wt) / 8 = num /\ (num * 8 + wt) mod 8 = wt)%N.
Proof.
  intros H. split.
  - rewrite N.div_add_l by lia. rewrite N.div_small by exact H. lia.
  - rewrite N.add_comm, N.Div0.mod_add. apply N.mod_small. exact H.
Qed.

(** One field is read back, and the decoding goes on behind it. *)
Lemma decode_fields_encode_field (fuel : nat) (f : proto.field) (rest : GoStr.bytes) :
  proto.decode_fields (S fuel) (proto.encode_field f ++ rest)
  = option_map (cons f) (proto.decode_fields fuel rest).
Proof.
  destruct (encode_field_cons f) as (c & r & E).
  pose proof (decode_fields_step fuel c (r ++ rest)) as S.
  change (c :: r ++ rest)%list with ((c :: r) ++ rest)%list in S.
  rewrite <- E in S. rewrite S. clear S E c r.
  destruct f as [num v|num b|num|num]; cbn [proto.encode_field];
    rewrite <- ?app_assoc, DecodeVarint_key; cbn zeta.
  - destruct (key_div_mod num 0) as [-> ->]; [lia|].
    rewrite DecodeVarint_EncodeVarint. reflexivity.
  - destruct (key_div_mod num 2) as [-> ->]; [lia|].
    rewrite DecodeVarint_EncodeVarint, Nat2N.id.
    assert (L : (length b <=? length (b ++ rest))%nat = true)
      by (apply Nat.leb_le; rewrite length_app; lia).
    rewrite L, take_app_length, drop_app_length. reflexivity.
  - destruct (key_div_mod num 3) as [-> ->]; [lia|]. reflexivity.
  - destruct (key_div_mod num 4) as [-> ->]; [lia|]. reflexivity.
Qed.

Lemma decode_fields_encode_fields (fs : list proto.field) : forall fuel : nat,
  (length fs <= fuel)%nat ->
  proto.decode_fields fuel (proto.encode_fields fs) = Some fs.
Proof.
  unfold proto.encode_fields.
  induction fs as [|f fs IH]; intros fuel Hf; cbn [map concat].
  - destruct fuel; reflexivity.
  - destruct fuel as [|fuel]; [cbn in Hf; lia|].
    rewrite decode_fields_encode_field, IH by (cbn in Hf; lia). reflexivity.
Qed.

Lemma length_encode_fields (fs : list proto.field) :
  (length fs <= length (proto.encode_fields fs))%nat.
Proof.
  unfold proto.encode_fields. induction fs as [|f fs IH]; cbn [map concat length].
  - lia.
  - destruct (encode_field_cons f) as (c & r & ->). rewrite length_app. cbn. lia.
Qed.

(** Parsing undoes the encoding of fields. *)
Lemma parse_encode_fields (fs : list proto.field) :
  proto.parse (proto.encode_fields fs) = Some fs.
Proof.
  unfold proto.parse. apply decode_fields_encode_fields, length_encode_fields.
Qed.

Lemma int64_of_uint64_of_int64 (i : Z) :
  int64_min <= i <= int64_max ->
  proto.int64_of_uint64 (proto.uint64_of_int64 i) = i.
Proof.
  unfold int64_min, int64_max, proto.int64_of_uint64, proto.uint64_of_int64.
  intros H. rewrite Z2N.id by (apply Z.mod_pos_bound; lia).
  rewrite Z.mod_mod by lia.
  destruct (Z.ltb_spec i 0) as [Hneg|Hpos].
  - replace (i mod 2 ^ 64) with (i + 2 ^ 64)
      by (apply Z.mod_unique with (-1); lia).
    destruct (Z.ltb_spec (i + 2 ^ 64) (2 ^ 63)); lia.
  - rewrite Z.mod_small by lia.
    destruct (Z.ltb_spec i (2 ^ 63)); lia.
Qed.

(** ** The wire messages *)

Lemma Path_of_fields_fields_of_Path (es : list pb.Path_Element) :
  forall fs : list proto.field,
  Forall element_ok es ->
  pb.fields_of_Path es = Some fs ->
  pb.Path_of_fields fs None = Some es.
Proof.
  induction es as [|e es IH]; intros fs Hok Hf; cbn [pb.fields_of_Path] in Hf.
  - inversion Hf. reflexivity.
  - inversion Hok as [|? ? [Ht Hid] Hes]; subst.
    destruct e as [[t|] id name]; [|contradiction].
    unfold pb.fields_of_Element in Hf. cbn [pb.Type_ pb.Id pb.Name] in *.
    destruct (pb.fields_of_Path es) as [fs'|]; [|discriminate].
    specialize (IH fs' Hes eq_refl). inversion Hf; subst. clear Hf.
    destruct id as [i|], name as [n|];
      cbn [app pb.Path_of_fields pb.Type_ pb.Id pb.Name];
      rewrite ?of_bytes_to_bytes, ?int64_of_uint64_of_int64, IH by exact Hid;
      reflexivity.
Qed.

Lemma fields_of_Path_ok (es : list pb.Path_Element) :
  Forall element_ok es -> exists fs, pb.fields_of_Path es = Some fs.
Proof.
  induction es as [|e es IH]; intros Hok; cbn [pb.fields_of_Path].
  - eauto.
  - inversion Hok as [|? ? [Ht _] Hes]; subst.
    destruct (IH Hes) as [fs ->]. unfold pb.fields_of_Element.
    destruct (pb.Type_ e); [eauto|contradiction].
Qed.

(** [Unmarshal] reads back what [Marshal] wrote. *)
Lemma Unmarshal_Marshal (r : pb.Reference) (b : GoStr.bytes) :
  Forall element_ok (pb.Element (pb.Path_ r)) ->
  pb.Marshal r = Some b ->
  pb.Unmarshal b = Some r.
Proof.
  intros Hok. unfold pb.Marshal. destruct r as [[ap|] ns [es]]; [|discriminate].
  cbn [pb.App pb.NameSpace pb.Path_ pb.Element] in *.
  destruct (pb.fields_of_Path es) as [fs|] eqn:F; [|discriminate].
  intros Hb. inversion Hb; subst. clear Hb.
  unfold pb.Unmarshal. rewrite parse_encode_fields.
  destruct ns as [ns|];
    cbn [app pb.Reference_of_fields pb.App pb.NameSpace pb.Path_ pb.Element];
    rewrite parse_encode_fields, (Path_of_fields_fields_of_Path es fs Hok F);
    cbn [app pb.Reference_of_fields pb.App pb.NameSpace pb.Path_ pb.Element];
    rewrite ?of_bytes_to_bytes; reflexivity.
Qed.

Lemma Marshal_ok (r : pb.Reference) :
  pb.App r <> None ->
  Forall element_ok (pb.Element (pb.Path_ r)) ->
  exists b, pb.Marshal r = Some b.
Proof.
  intros Ha Hok. unfold pb.Marshal.
  destruct (fields_of_Path_ok _ Hok) as [fs ->].
  destruct (pb.App r); [eauto|contradiction].
Qed.

(** ** Keys and the wire *)

Lemma rev_ind_last {A : Type} (l : list A) :
  l = [] \/ exists l' x, l = l' ++ [x].
Proof.
  induction l as [|y l IH]; [left; reflexivity|right].
  destruct IH as [->|(l' & x & ->)].
  - exists [], y. reflexivity.
  - exists (y :: l'), x. reflexivity.
Qed.

Lemma valid_loop_inv (a ns : string) (p : option Key) (kd s : string) (i : Z) :
  valid_loop (mkKey a ns p kd s i) = true ->
  (negb (isEmpty s) && negb (i =? 0)) = false
  /\ match p with
     | Some p' => appID p' = a /\ namespace p' = ns /\ valid_loop p' = true
     | None => True
     end.
Proof.
  cbn [valid_loop]. destruct (isEmpty kd || isEmpty a); [discriminate|].
  destruct (negb (isEmpty s) && negb (i =? 0)); [discriminate|].
  destruct p as [p'|]; [|tauto].
  destruct (Incomplete p'); [discriminate|].
  destruct (String.eqb_spec (appID p') a); [|discriminate].
  destruct (String.eqb_spec (namespace p') ns); [|discriminate].
  cbn [negb]. tauto.
Qed.

(** The key of a level is rebuilt from its path element. *)
Lemma element_of_rebuild (a ns : string) (p : option Key) (kd s : string) (i : Z) :
  (negb (isEmpty s) && negb (i =? 0)) = false ->
  let e := element_of (mkKey a ns p kd s i) in
  mkKey a ns p (proto.GetString (pb.Type_ e)) (proto.GetString (pb.Name e))
        (proto.GetInt64 (pb.Id e))
  = mkKey a ns p kd s i.
Proof.
  intros H. unfold element_of. cbn [stringID intID kind pb.Type_ pb.Name pb.Id].
  destruct (isEmpty s) eqn:Es; cbn [negb andb] in *.
  - apply isEmpty_true in Es. subst.
    destruct (Z.eqb_spec i 0); subst; reflexivity.
  - destruct (Z.eqb_spec i 0); [subst; reflexivity|discriminate].
Qed.

Lemma protoToKey_loop_step (a ns : string) (p : option Key) (kd s : string) (i : Z)
  (e : list pb.Path_Element) :
  valid_loop (mkKey a ns p kd s i) = true ->
  protoToKey_loop a ns (element_of (mkKey a ns p kd s i) :: e) p
  = protoToKey_loop a ns e (Some (mkKey a ns p kd s i)).
Proof.
  intros Hv. destruct (valid_loop_inv _ _ _ _ _ _ Hv) as [Hid _].
  cbn [protoToKey_loop]. rewrite (element_of_rebuild a ns p kd s i Hid).
  cbn [valid]. rewrite Hv. reflexivity.
Qed.

Lemma protoToKey_loop_path_elements (k : Key) :
  valid_loop k = true ->
  forall e : list pb.Path_Element,
    protoToKey_loop (appID k) (namespace k) (path_elements k e) None
    = protoToKey_loop (appID k) (namespace k) e (Some k).
Proof.
  induction k as [a ns kd s i|a ns p kd s i IH] using Key_chain_ind; intros Hv e.
  - cbn [path_elements appID namespace]. apply protoToKey_loop_step. exact Hv.
  - destruct (valid_loop_inv _ _ _ _ _ _ Hv) as [_ (Ha & Hns & Hp)].
    cbn [path_elements appID namespace]. specialize (IH Hp).
    rewrite Ha, Hns in IH. rewrite IH. apply protoToKey_loop_step. exact Hv.
Qed.

(** The array that [keyToProto] fills holds the path elements of the chain,
    the root first. *)
Lemma keyToProto_fill_path_elements (k : Key) :
  forall pre suf : list pb.Path_Element,
  length pre = depth k ->
  keyToProto_fill k (depth k) (pre ++ suf) = path_elements k suf.
Proof.
  induction k as [a ns kd s i|a ns p kd s i IH] using Key_chain_ind;
    intros pre suf Hl; cbn [depth] in Hl;
    destruct (rev_ind_last pre) as [->|(pre' & x & ->)];
    try (cbn in Hl; lia);
    rewrite length_app in Hl; cbn [length] in Hl;
    cbn [keyToProto_fill path_elements depth];
    rewrite <- app_assoc; cbn [app].
  - assert (pre' = []) as -> by (destruct pre'; [reflexivity|cbn in Hl; lia]).
    reflexivity.
  - replace (S (depth p) - 1)%nat with (length pre' + 0)%nat by lia.
    rewrite insert_app_r. cbn [insert list_insert].
    replace (length pre' + 0)%nat with (depth p) by lia.
    apply IH. lia.
Qed.

Lemma keyToProto_Element (k : Key) :
  pb.Element (pb.Path_ (keyToProto k)) = path_elements k [].
Proof.
  unfold keyToProto. cbn [pb.Element pb.Path_].
  rewrite <- (app_nil_r (replicate _ _)).
  apply keyToProto_fill_path_elements. apply length_replicate.
Qed.

(** [protoToKey] undoes [keyToProto] on a valid key. *)
Lemma protoToKey_keyToProto (k : Key) :
  valid (Some k) = true -> protoToKey (keyToProto k) = (Some k, None).
Proof.
  intros Hv. unfold protoToKey. rewrite keyToProto_Element.
  unfold keyToProto. cbn [pb.App pb.NameSpace].
  assert (Hns : proto.GetString
                  (if negb (isEmpty (namespace k)) then Some (namespace k) else None)
                = namespace k).
  { destruct (isEmpty (namespace k)) eqn:E; [|reflexivity].
    apply isEmpty_true in E. rewrite E. reflexivity. }
  rewrite Hns. change (proto.GetString (Some (appID k))) with (appID k).
  rewrite (protoToKey_loop_path_elements k Hv []). reflexivity.
Qed.

Lemma element_of_ok (a ns : string) (p : option Key) (kd s : string) (i : Z) :
  int64_min <= i <= int64_max -> element_ok (element_of (mkKey a ns p kd s i)).
Proof.
  intros Hi. split; [discriminate|]. unfold element_of.
  cbn [stringID intID kind pb.Type_ pb.Name pb.Id].
  destruct (negb (isEmpty s)); [exact I|].
  destruct (negb (i =? 0)); [exact Hi|exact I].
Qed.

Lemma path_elements_ok (k : Key) :
  int64_chain k ->
  forall e, Forall element_ok e -> Forall element_ok (path_elements k e).
Proof.
  induction k as [a ns kd s i|a ns p kd s i IH] using Key_chain_ind;
    intros Hc e He; cbn [path_elements]; cbn [int64_chain] in Hc;
    destruct Hc as [Hi Hp].
  - constructor; [apply element_of_ok; exact Hi|exact He].
  - apply IH; [exact Hp|]. constructor; [apply element_of_ok; exact Hi|exact He].
Qed.


(** C1: for every key that is a valid ancestor chain (of at least one level,
    as every key is), [Encode] returns a text from which [DecodeKey] returns
    that key, with no error: the same kind, stringID, intID, appID and
    namespace at every level, and the same number of levels. *)
Theorem DecodeKey_Encode (k : Key) :
  int64_chain k ->
  valid (Some k) = true ->
  exists encoded : string,
    Encode k = Some encoded
    /\ DecodeKey encoded = (Some k, None)
    /\ Eq (fst (DecodeKey encoded)) (Some k) = true
    /\ option_map levels (fst (DecodeKey encoded)) = Some (levels k)
    /\ option_map depth (fst (DecodeKey encoded)) = Some (depth k).
Proof.
  intros Hc Hv.
  assert (Hok : Forall element_ok (pb.Element (pb.Path_ (keyToProto k))))
    by (rewrite keyToProto_Element; apply path_elements_ok; [exact Hc|constructor]).
  unfold Encode.
  destruct (Marshal_ok (keyToProto k)) as [b Hb]; [discriminate|exact Hok|].
  rewrite Hb. eexists. split; [reflexivity|].
  assert (D : DecodeKey (GoStr.TrimRight (GoStr.of_bytes (base64.EncodeToString b)) "=")
              = (Some k, None)).
  { unfold DecodeKey. rewrite base64_roundtrip.
    rewrite (Unmarshal_Marshal _ _ Hok Hb). apply protoToKey_keyToProto. exact Hv. }
  rewrite D. cbn [fst option_map]. repeat split. apply Eq_true. reflexivity.
Qed.

Lemma DecodeKey_Encode_witness :
  exists encoded : string,
    Encode key_child = Some encoded
    /\ DecodeKey encoded = (Some key_child, None)
    /\ Eq (fst (DecodeKey encoded)) (Some key_child) = true
    /\ option_map levels (fst (DecodeKey encoded)) = Some (levels key_child)
    /\ option_map depth (fst (DecodeKey encoded)) = Some (depth key_child).
Proof.
  apply (DecodeKey_Encode key_child).
  - cbn. unfold int64_min, int64_max. lia.
  - reflexivity.
Defined.

(** The encoding of a reference without path elements decodes to no key and
    no error, whatever the application and the namespace. *)
Lemma DecodeKey_empty_path (app : string) (ns : option string) (b : GoStr.bytes) :
  pb.Marshal (pb.mkReference (Some app) ns (pb.mkPath [])) = Some b ->
  DecodeKey (GoStr.TrimRight (GoStr.of_bytes (base64.EncodeToString b)) "=")
  = (None, None).
Proof.
  intros Hb. unfold DecodeKey. rewrite base64_roundtrip.
  rewrite (Unmarshal_Marshal (pb.mkReference (Some app) ns (pb.mkPath [])) b
             (Forall_nil_2 element_ok) Hb).
  reflexivity.
Qed.

(** C10: there is an input of [DecodeKey], the text [agF4cgA], that is
    well-formed base64 of a wire reference whose path has no element, and for
    which [DecodeKey] returns a nil key with a nil error. *)
Theorem DecodeKey_nil_key_nil_error :
  exists (encoded : string) (b : GoStr.bytes) (ref : pb.Reference),
    encoded = "agF4cgA"
    /\ base64.DecodeString (GoStr.to_bytes (repad encoded)) = Some b
    /\ pb.Unmarshal b = Some ref
    /\ pb.Element (pb.Path_ ref) = []
    /\ DecodeKey encoded = (None, None).
Proof.
  exists "agF4cgA".
  exists (GoStr.to_bytes (String "j" (String "001" (String "x" (String "r" (String "000" "")))))).
  exists (pb.mkReference (Some "x") None (pb.mkPath [])).
  repeat split; vm_compute; reflexivity.
Qed.

(* ================================================================== *)
(** * Part III: the rest of the package *)
(* ================================================================== *)

(** ** Validity along the chain *)

Lemma valid_loop_unfold (a ns : string) (p : option Key) (kd s : string) (i : Z) :
  valid_loop (mkKey a ns p kd s i) = true
  <-> kd <> "" /\ a <> "" /\ (s = "" \/ i = 0)
      /\ match p with
         | Some p' =>
             Incomplete p' = false /\ appID p' = a /\ namespace p' = ns
             /\ valid_loop p' = true
         | None => True
         end.
Proof.
  cbn [valid_loop].
  destruct (isEmpty kd) eqn:Ek; [apply isEmpty_true in Ek|apply isEmpty_false in Ek];
    cbn [orb]; [split; [discriminate|tauto]|].
  destruct (isEmpty a) eqn:Ea; [apply isEmpty_true in Ea|apply isEmpty_false in Ea];
    [split; [discriminate|tauto]|].
  destruct (isEmpty s) eqn:Es; [apply isEmpty_true in Es|apply isEmpty_false in Es];
    destruct (Z.eqb_spec i 0) as [Ei|Ei]; cbn [negb andb];
    try (split; [discriminate|tauto]).
  all: destruct p as [p'|]; [|tauto].
  all: destruct (Incomplete p'); [split; [discriminate|intros (_ & _ & _ & ? & _); discriminate]|].
  all: destruct (String.eqb_spec (appID p') a); cbn [negb];
    [|split; [discriminate|tauto]].
  all: destruct (String.eqb_spec (namespace p') ns); cbn [negb];
    [|split; [discriminate|tauto]].
  all: tauto.
Qed.

Lemma chain_head (k : Key) : exists l, chain k = k :: l.
Proof. destruct k as [a ns [p|] kd s i]; cbn; eauto. Qed.

(** X1: a key is valid exactly when its application ID is not empty, every
    level of its chain has a kind, the application ID and the namespace of
    the key, and at most one of the two ids, and every proper ancestor is
    complete. *)
Theorem valid_levels (k : Key) :
  valid (Some k) = true
  <-> appID k <> ""
      /\ Forall (fun x => kind x <> "" /\ appID x = appID k /\ namespace x = namespace k
                          /\ (stringID x = "" \/ intID x = 0)) (chain k)
      /\ Forall (fun x => Incomplete x = false) (tail (chain k)).
Proof.
  cbn [valid].
  induction k as [a ns kd s i|a ns p kd s i IH] using Key_chain_ind;
    rewrite valid_loop_unfold; cbn [chain tail appID namespace].
  - split.
    + intros (Hk & Ha & Hi & _). split; [exact Ha|]. split; [|constructor].
      constructor; [|constructor]. cbn. tauto.
    + intros (Ha & F & _). inversion F as [|? ? (Hk & _ & _ & Hi) _]; subst.
      cbn in *. tauto.
  - rewrite IH. destruct (chain_head p) as [l El]. split.
    + intros (Hk & Ha & Hi & Hinc & Hpa & Hpn & Hpa' & F & T). subst a ns.
      split; [exact Ha|]. split.
      * constructor; [cbn; tauto|exact F].
      * rewrite El in T |- *. cbn [tail] in T. constructor; assumption.
    + intros (Ha & F & T).
      inversion F as [|? ? (Hk & _ & _ & Hi) F']; subst. cbn in Hk, Hi.
      assert (Hp : appID p = a /\ namespace p = ns).
      { rewrite El in F'. inversion F' as [|? ? (_ & Hpa & Hpn & _) _]; subst. tauto. }
      destruct Hp as [Hpa Hpn]. rewrite Hpa, Hpn.
      rewrite El in T. inversion T as [|? ? Hinc T']; subst.
      repeat split; try assumption. rewrite El. cbn [tail]. exact T'.
Qed.

(** ** The constructors *)

Lemma valid_loop_appID (k : Key) : valid_loop k = true -> appID k <> "".
Proof.
  destruct k as [a ns p kd s i]. rewrite valid_loop_unfold. cbn. tauto.
Qed.

Lemma NewNamespaceKey_loop_valid (p : Key) :
  valid_loop p = true ->
  forall n : string, n = "" \/ n = namespace p -> NewNamespaceKey_loop p n = namespace p.
Proof.
  induction p as [a ns kd s i|a ns p kd s i IH] using Key_chain_ind;
    intros Hv n Hn; cbn [NewNamespaceKey_loop namespace] in *.
  - destruct (isEmpty n) eqn:E; [reflexivity|].
    apply isEmpty_false in E. destruct Hn; congruence.
  - destruct (isEmpty n) eqn:E.
    + apply valid_loop_unfold in Hv.
      destruct Hv as (_ & _ & _ & _ & _ & Hpn & Hp).
      rewrite <- Hpn. apply IH; [exact Hp|right; reflexivity].
    + apply isEmpty_false in E. destruct Hn; congruence.
Qed.

(** X2: under a valid, complete parent of the same application,
    [NewNamespaceKey] with the zero namespace gives a valid key in the
    namespace of the parent, whatever the depth of the chain. *)
Theorem NewNamespaceKey_inherits
  (c : Context) (kd s : string) (i : Z) (p : Key) :
  valid (Some p) = true ->
  Incomplete p = false ->
  appID p = FullyQualifiedAppID c ->
  kd <> "" ->
  s = "" \/ i = 0 ->
  let k := NewNamespaceKey c kd s i (Some p) "" in
  namespace k = namespace p /\ valid (Some k) = true.
Proof.
  intros Hv Hinc Ha Hk Hi. cbn zeta. unfold NewNamespaceKey.
  rewrite (NewNamespaceKey_loop_valid p Hv "" (or_introl eq_refl)).
  split; [reflexivity|]. cbn [valid]. apply valid_loop_unfold.
  repeat split; try assumption.
  rewrite <- Ha. apply valid_loop_appID. exact Hv.
Qed.

Lemma NewNamespaceKey_inherits_witness :
  namespace (NewNamespaceKey context_app1 "Toy" "" 3 (Some key_ns_child) "") = "ns"
  /\ valid (Some (NewNamespaceKey context_app1 "Toy" "" 3 (Some key_ns_child) "")) = true.
Proof.
  apply (NewNamespaceKey_inherits context_app1 "Toy" "" 3 key_ns_child).
  - reflexivity.
  - reflexivity.
  - reflexivity.
  - discriminate.
  - left. reflexivity.
Defined.

(** X3: [NewKey] leaves the namespace empty, so a key that it makes under a
    parent is valid only if the parent is valid, complete, of the context's
    application and in the empty namespace: under a parent in a namespace,
    or under an incomplete parent, the new key is never valid. *)
Theorem NewKey_parent (c : Context) (kd s : string) (i : Z) (p : Key) :
  (valid (Some (NewKey c kd s i (Some p))) = true ->
   valid (Some p) = true /\ Incomplete p = false
   /\ appID p = FullyQualifiedAppID c /\ namespace p = "")
  /\ (namespace p <> "" -> valid (Some (NewKey c kd s i (Some p))) = false)
  /\ (Incomplete p = true -> valid (Some (NewKey c kd s i (Some p))) = false).
Proof.
  assert (H : valid (Some (NewKey c kd s i (Some p))) = true ->
              valid (Some p) = true /\ Incomplete p = false
              /\ appID p = FullyQualifiedAppID c /\ namespace p = "").
  { unfold NewKey. cbn [valid]. rewrite valid_loop_unfold. tauto. }
  split; [exact H|]. split; intros Hp;
    destruct (valid (Some (NewKey c kd s i (Some p)))); try reflexivity;
    destruct (H eq_refl) as (_ & Hinc & _ & Hns); congruence.
Qed.

(** ** root *)

(** X4: the root of a key has no parent and is the last level of its chain;
    the root of a valid key is valid, has the application ID and the
    namespace of the key, and is complete when the key has ancestors. *)
Theorem root_of_chain (k : Key) :
  parent (root k) = None
  /\ last (chain k) = Some (root k)
  /\ (valid (Some k) = true ->
      valid (Some (root k)) = true
      /\ appID (root k) = appID k /\ namespace (root k) = namespace k
      /\ (parent k <> None -> Incomplete (root k) = false)).
Proof.
  induction k as [a ns kd s i|a ns p kd s i (IH1 & IH2 & IH3)] using Key_chain_ind.
  - cbn. split; [reflexivity|]. split; [reflexivity|]. intros Hv.
    split; [exact Hv|]. split; [reflexivity|]. split; [reflexivity|].
    intros Hn. contradiction.
  - cbn [root chain parent]. split; [exact IH1|]. split.
    + destruct (chain_head p) as [l El]. rewrite El in *.
      rewrite last_cons_cons. exact IH2.
    + cbn [valid]. rewrite valid_loop_unfold.
      intros (_ & _ & _ & Hinc & Hpa & Hpn & Hp).
      destruct (IH3 Hp) as (Hr & Hra & Hrn & Hri). cbn [appID namespace].
      repeat split; try assumption; try congruence.
      intros _. destruct p as [a' ns' [pp|] kd' s' i'].
      * apply Hri. discriminate.
      * exact Hinc.
Qed.

(** ** gobKey *)

Lemma gobKeyToKey_loop_keyToGobKey_loop (k : Key) :
  gobKeyToKey_loop (keyToGobKey_loop k) = k.
Proof.
  induction k as [a ns kd s i|a ns p kd s i IH] using Key_chain_ind;
    cbn [keyToGobKey_loop gobKeyToKey_loop]; [reflexivity|].
  rewrite IH. reflexivity.
Qed.

Lemma keyToGobKey_loop_gobKeyToKey_loop (gk : gobKey.t) :
  keyToGobKey_loop (gobKeyToKey_loop gk) = gk.
Proof.
  induction gk as [kd s i a ns|kd s i p a ns IH] using gobKey_chain_ind;
    cbn [keyToGobKey_loop gobKeyToKey_loop]; [reflexivity|].
  rewrite IH. reflexivity.
Qed.

(** X5: the conversions between keys and gob keys are inverse to each other,
    nil included; the key that comes back is equal to the first by [Eq]. *)
Theorem gobKey_roundtrip :
  (forall k : option Key, gobKeyToKey (keyToGobKey k) = k)
  /\ (forall gk : option gobKey.t, keyToGobKey (gobKeyToKey gk) = gk)
  /\ (forall k : option Key,
        Eq (gobKeyToKey (keyToGobKey k)) k = true).
Proof.
  assert (A : forall k : option Key, gobKeyToKey (keyToGobKey k) = k).
  { intros [k|]; cbn; [|reflexivity]. rewrite gobKeyToKey_loop_keyToGobKey_loop.
    reflexivity. }
  split; [exact A|]. split.
  - intros [gk|]; cbn; [|reflexivity]. rewrite keyToGobKey_loop_gobKeyToKey_loop.
    reflexivity.
  - intros k. rewrite A. apply Eq_true. reflexivity.
Qed.

(** ** The two texts of a key *)

Lemma string_app_assoc (a b c : string) : (a +:+ b) +:+ c = a +:+ (b +:+ c).
Proof. apply to_bytes_inj. rewrite !to_bytes_append. apply eq_sym, app_assoc. Qed.

Lemma string_app_empty_r (a : string) : a +:+ "" = a.
Proof. apply to_bytes_inj. rewrite to_bytes_append. apply app_nil_r. Qed.

Lemma string_length_app (a b : string) :
  String.length (a +:+ b) = (String.length a + String.length b)%nat.
Proof. rewrite <- !length_to_bytes, to_bytes_append. apply length_app. Qed.

Lemma string_length_zero (a : string) : String.length a = 0%nat -> a = "".
Proof. destruct a; [reflexivity|discriminate]. Qed.

Lemma marshal_length (k : Key) : forall b : string,
  String.length (marshal k b)
  = (String.length (marshal_refined k b)
     + list_sum (map String.length (namespaces_below_root k)))%nat.
Proof.
  induction k as [a ns kd s i|a ns p kd s i IH] using Key_chain_ind; intros b;
    cbn [marshal marshal_refined namespaces_below_root map];
    rewrite !string_length_app.
  - cbn [list_sum fold_right]. lia.
  - rewrite IH.
    change (list_sum (String.length ns :: map String.length (namespaces_below_root p)))
      with (String.length ns + list_sum (map String.length (namespaces_below_root p)))%nat.
    lia.
Qed.

Lemma marshal_agree (k : Key) : forall b : string,
  Forall (fun ns => ns = "") (namespaces_below_root k) ->
  marshal k b = marshal_refined k b.
Proof.
  induction k as [a ns kd s i|a ns p kd s i IH] using Key_chain_ind; intros b F;
    cbn [marshal marshal_refined namespaces_below_root] in *.
  - rewrite !string_app_assoc. reflexivity.
  - inversion F as [|? ? Hns F']; subst. rewrite (IH b F'). reflexivity.
Qed.

Lemma list_sum_zero (l : list string) :
  list_sum (map String.length l) = 0%nat -> Forall (fun ns => ns = "") l.
Proof.
  induction l as [|x l IH]; intros H; constructor;
    change (String.length x + list_sum (map String.length l) = 0)%nat in H.
  - apply string_length_zero. lia.
  - apply IH. lia.
Qed.

(** X6: the text of a key by [String] of key.go and by [String] of the
    refined implementation are the same exactly when every level below the
    root has the empty namespace: key.go writes the namespace at every
    level, the refined implementation at the root only. *)
Theorem Key_String_agree (k : Key) :
  Key_String (Some k) = Key_String_refined (Some k)
  <-> Forall (fun ns => ns = "") (namespaces_below_root k).
Proof.
  cbn [Key_String Key_String_refined]. split.
  - intros E. apply list_sum_zero.
    pose proof (marshal_length k "") as L. rewrite E in L. lia.
  - apply marshal_agree.
Qed.

(** ** The path of a key on the wire *)

Lemma path_elements_chain (k : Key) : forall e : list pb.Path_Element,
  path_elements k e = map element_of (rev (chain k)) ++ e.
Proof.
  induction k as [a ns kd s i|a ns p kd s i IH] using Key_chain_ind; intros e;
    cbn [path_elements chain]; [reflexivity|].
  rewrite IH. cbn [rev]. rewrite map_app, <- app_assoc. reflexivity.
Qed.

Lemma chain_length (k : Key) : length (chain k) = depth k.
Proof.
  induction k as [a ns kd s i|a ns p kd s i IH] using Key_chain_ind; cbn;
    [reflexivity|]. f_equal. exact IH.
Qed.

(** X7: for every key, valid or not, the reference of [keyToProto] carries
    the application ID of the key, the namespace when it is not empty, and
    one path element for each level, the root first; every element has its
    type set and at most one of its name and id. *)
Theorem keyToProto_shape (k : Key) :
  let r := keyToProto k in
  pb.App r = Some (appID k)
  /\ (pb.NameSpace r = if isEmpty (namespace k) then None else Some (namespace k))
  /\ pb.Element (pb.Path_ r) = map element_of (rev (chain k))
  /\ length (pb.Element (pb.Path_ r)) = depth k
  /\ Forall (fun e => pb.Type_ e <> None /\ (pb.Name e = None \/ pb.Id e = None))
            (pb.Element (pb.Path_ r)).
Proof.
  cbn zeta.
  assert (E : pb.Element (pb.Path_ (keyToProto k)) = map element_of (rev (chain k))).
  { rewrite keyToProto_Element, path_elements_chain. apply app_nil_r. }
  split; [reflexivity|]. split.
  { unfold keyToProto. cbn [pb.NameSpace]. destruct (isEmpty (namespace k)); reflexivity. }
  split; [exact E|]. rewrite E. split.
  - rewrite length_map, length_rev. apply chain_length.
  - generalize (rev (chain k)). intros l.
    induction l as [|x l IH]; cbn [map]; constructor; [|exact IH].
    unfold element_of. cbn [pb.Type_ pb.Name pb.Id].
    split; [discriminate|]. destruct (negb (isEmpty (stringID x))); tauto.
Qed.



(** ** What the decoders return *)

Lemma protoToKey_loop_outcome (a ns : string) (es : list pb.Path_Element) :
  forall acc : option Key,
  (forall k, acc = Some k -> valid (Some k) = true) ->
  forall (ok : option Key) (err : error),
  protoToKey_loop a ns es acc = (ok, err) ->
  (forall k, ok = Some k -> valid (Some k) = true /\ err = None)
  /\ (err <> None -> ok = None /\ err = Some ErrInvalidKey)
  /\ (ok = None -> err = None -> es = [] /\ acc = None).
Proof.
  induction es as [|e es IH]; intros acc Hacc ok err H; cbn [protoToKey_loop] in H.
  - inversion H; subst. split; [|split].
    + intros k Hk. split; [apply Hacc; exact Hk|reflexivity].
    + intros Hn. contradiction.
    + tauto.
  - destruct (valid (Some (mkKey a ns acc _ _ _))) eqn:V; cbn [negb] in H.
    + apply IH in H; [|intros k Hk; inversion Hk; subst; exact V].
      destruct H as (H1 & H2 & H3). split; [exact H1|]. split; [exact H2|].
      intros Hok Herr. destruct (H3 Hok Herr) as [_ Habs]. discriminate.
    + inversion H; subst. split; [|split].
      * intros k Hk. discriminate.
      * intros _. split; reflexivity.
      * intros _ Habs. discriminate.
Qed.

(** X9: [protoToKey] returns a key with a nil error, or a nil key with
    [ErrInvalidKey], or nil and nil; a key that it returns is valid, and
    nil with nil comes from the empty path only. *)
Theorem protoToKey_outcome (r : pb.Reference) (ok : option Key) (err : error) :
  protoToKey r = (ok, err) ->
  (forall k, ok = Some k -> valid (Some k) = true /\ err = None)
  /\ (err <> None -> ok = None /\ err = Some ErrInvalidKey)
  /\ (ok = None -> err = None -> pb.Element (pb.Path_ r) = []).
Proof.
  unfold protoToKey. intros H.
  apply protoToKey_loop_outcome in H; [|intros k Hk; discriminate].
  destruct H as (H1 & H2 & H3). split; [exact H1|]. split; [exact H2|].
  intros Hok Herr. apply (H3 Hok Herr).
Qed.

Lemma protoToKey_outcome_witness :
  (forall k, Some key_child = Some k -> valid (Some k) = true /\ @None Err = None)
  /\ (@None Err <> None -> Some key_child = None /\ @None Err = Some ErrInvalidKey)
  /\ (Some key_child = None -> @None Err = None
      -> pb.Element (pb.Path_ (keyToProto key_child)) = []).
Proof.
  apply (protoToKey_outcome (keyToProto key_child) (Some key_child) None).
  reflexivity.
Defined.

Lemma protoToKey_valid (r : pb.Reference) (k : Key) (err : error) :
  protoToKey r = (Some k, err) -> valid (Some k) = true /\ err = None.
Proof.
  unfold protoToKey. intros H.
  apply protoToKey_loop_outcome in H; [|intros k' Hk; discriminate].
  apply H. reflexivity.
Qed.

(** X10: [protoToKey] gives back the key of [keyToProto] exactly when the
    key is valid. *)
Theorem protoToKey_keyToProto_iff (k : Key) :
  protoToKey (keyToProto k) = (Some k, None) <-> valid (Some k) = true.
Proof.
  split.
  - intros H. apply (protoToKey_valid _ _ _ H).
  - apply protoToKey_keyToProto.
Qed.

(** X11: whatever the text, [DecodeKey] never returns a key together with an
    error, and a key that it returns is valid. *)
Theorem DecodeKey_valid (encoded : string) (k : Key) (err : error) :
  DecodeKey encoded = (Some k, err) -> err = None /\ valid (Some k) = true.
Proof.
  unfold DecodeKey.
  destruct (base64.DecodeString _); [|discriminate].
  destruct (pb.Unmarshal _); [|discriminate].
  intros H. apply protoToKey_valid in H. tauto.
Qed.

Lemma DecodeKey_valid_witness : @None Err = None /\ valid (Some key_child) = true.
Proof.
  apply (DecodeKey_valid "agRhcHAxchoLEgZQZXJzb24iBWFsaWNlDAsSA1BldBgHDA" key_child None).
  vm_compute. reflexivity.
Defined.

(** [Encode] and [DecodeKey] on a valid key, for the entries below. *)
Lemma Encode_DecodeKey (k : Key) :
  int64_chain k ->
  valid (Some k) = true ->
  exists encoded, Encode k = Some encoded /\ DecodeKey encoded = (Some k, None).
Proof.
  intros Hc Hv.
  assert (Hok : Forall element_ok (pb.Element (pb.Path_ (keyToProto k))))
    by (rewrite keyToProto_Element; apply path_elements_ok; [exact Hc|constructor]).
  unfold Encode.
  destruct (Marshal_ok (keyToProto k)) as [b Hb]; [discriminate|exact Hok|].
  rewrite Hb. eexists. split; [reflexivity|].
  unfold DecodeKey. rewrite base64_roundtrip.
  rewrite (Unmarshal_Marshal _ _ Hok Hb). apply protoToKey_keyToProto. exact Hv.
Qed.

(** X12: two valid keys with the same encoding are the same key. *)
Theorem Encode_injective (a b : Key) :
  int64_chain a -> int64_chain b ->
  valid (Some a) = true -> valid (Some b) = true ->
  Encode a = Encode b -> a = b.
Proof.
  intros Ha Hb Va Vb E.
  destruct (Encode_DecodeKey a Ha Va) as (ea & Ea & Da).
  destruct (Encode_DecodeKey b Hb Vb) as (eb & Eb & Db).
  rewrite Ea, Eb in E. inversion E; subst. rewrite Da in Db. congruence.
Qed.

Lemma Encode_injective_witness : key_child = key_child.
Proof.
  apply (Encode_injective key_child key_child).
  - cbn. unfold int64_min, int64_max. lia.
  - cbn. unfold int64_min, int64_max. lia.
  - reflexivity.
  - reflexivity.
  - reflexivity.
Defined.

(** ** Reference values and batches *)

Lemma range_fill_map {A B : Type} (f : A -> B) (z : B) (l : list A) :
  forall (i : nat) (pre : list B),
  length pre = i ->
  range_fill f l i (pre ++ replicate (length l) z) = pre ++ map f l.
Proof.
  induction l as [|x l IH]; intros i pre Hi; cbn [range_fill length replicate map].
  - reflexivity.
  - replace i with (length pre + 0)%nat by lia. rewrite insert_app_r.
    cbn [insert list_insert].
    replace (pre ++ f x :: replicate (length l) z)
      with ((pre ++ [f x]) ++ replicate (length l) z)
      by (rewrite <- app_assoc; reflexivity).
    rewrite IH by (rewrite length_app; cbn; lia).
    rewrite <- app_assoc. reflexivity.
Qed.

Lemma keyToReferenceValue_Pathelement (k : Key) :
  pbr.Pathelement (keyToReferenceValue k)
  = map (fun e => pbr.mkPathElement (pb.Type_ e) (pb.Id e) (pb.Name e))
        (pb.Element (pb.Path_ (keyToProto k))).
Proof.
  unfold keyToReferenceValue. cbn [pbr.Pathelement].
  apply (range_fill_map _ _ _ 0 [] eq_refl).
Qed.

Lemma referenceValueToKey_loop_map (a ns : string) (es : list pb.Path_Element) :
  forall acc : option Key,
  referenceValueToKey_loop a ns
    (map (fun e => pbr.mkPathElement (pb.Type_ e) (pb.Id e) (pb.Name e)) es) acc
  = protoToKey_loop a ns es acc.
Proof.
  induction es as [|e es IH]; intros acc;
    cbn [map referenceValueToKey_loop protoToKey_loop pbr.Type_ pbr.Id pbr.Name];
    [reflexivity|].
  rewrite IH. reflexivity.
Qed.

(** X13: through the reference value of a property a key comes back as it
    does through the reference: [referenceValueToKey] of
    [keyToReferenceValue] is [protoToKey] of [keyToProto] for every key, and
    it is the key itself, with no error, exactly when the key is valid. *)
Theorem referenceValue_roundtrip (k : Key) :
  referenceValueToKey (keyToReferenceValue k) = protoToKey (keyToProto k)
  /\ (referenceValueToKey (keyToReferenceValue k) = (Some k, None)
      <-> valid (Some k) = true).
Proof.
  assert (E : referenceValueToKey (keyToReferenceValue k) = protoToKey (keyToProto k)).
  { unfold referenceValueToKey, protoToKey.
    rewrite keyToReferenceValue_Pathelement, referenceValueToKey_loop_map.
    reflexivity. }
  split; [exact E|]. rewrite E. split.
  - intros H. apply (protoToKey_valid _ _ _ H).
  - apply protoToKey_keyToProto.
Qed.

Lemma multiKeyToProto_loop_some (key : list (option Key)) :
  forall (i : nat) (pre : list (option pb.Reference)),
  length pre = i ->
  ~ In None key ->
  multiKeyToProto_loop key i (pre ++ replicate (length key) None)
  = Return (pre ++ map (option_map keyToProto) key).
Proof.
  induction key as [|k key IH]; intros i pre Hi Hn;
    cbn [multiKeyToProto_loop length replicate map].
  - reflexivity.
  - destruct k as [k|]; [|exfalso; apply Hn; left; reflexivity].
    replace i with (length pre + 0)%nat by lia. rewrite insert_app_r.
    cbn [insert list_insert option_map].
    replace (pre ++ Some (keyToProto k) :: replicate (length key) None)
      with ((pre ++ [Some (keyToProto k)]) ++ replicate (length key) None)
      by (rewrite <- app_assoc; reflexivity).
    replace (length pre + 0)%nat with (length pre) by lia.
    rewrite IH.
    + rewrite <- app_assoc. reflexivity.
    + rewrite length_app. cbn. lia.
    + intros H. apply Hn. right. exact H.
Qed.

Lemma multiKeyToProto_loop_nil (key : list (option Key)) :
  forall (i : nat) (ret : list (option pb.Reference)),
  In None key -> multiKeyToProto_loop key i ret = Panic.
Proof.
  induction key as [|k key IH]; intros i ret Hin; [contradiction|].
  cbn [multiKeyToProto_loop]. destruct k as [k|]; [|reflexivity].
  apply IH. destruct Hin as [Hin|Hin]; [discriminate|exact Hin].
Qed.

Lemma In_None_dec {A : Type} (l : list (option A)) : In None l \/ ~ In None l.
Proof.
  induction l as [|x l [IH|IH]].
  - right. intros [].
  - left. right. exact IH.
  - destruct x as [x|]; [right|left; left; reflexivity].
    intros [H|H]; [discriminate|contradiction].
Qed.

Lemma multiValid_None (key : list (option Key)) :
  multiValid key = None -> forallb valid key = true.
Proof.
  unfold multiValid. rewrite multiValid_all_valid.
  destruct (forallb valid key); [reflexivity|discriminate].
Qed.

Lemma forallb_valid_lookup (key : list (option Key)) :
  forallb valid key = true ->
  ~ In None key /\ forall i k, key !! i = Some k -> valid k = true.
Proof.
  induction key as [|x key IH]; cbn [forallb].
  - intros _. split; [intros []|intros i k H; discriminate].
  - intros H. apply andb_true_iff in H. destruct H as [Hx Hk].
    destruct (IH Hk) as [Hn Hl]. split.
    + intros [->|Hin]; [discriminate|contradiction].
    + intros [|i] k H; cbn in H; [inversion H; subst; exact Hx|apply (Hl i k H)].
Qed.

(** X14: [multiKeyToProto] panics exactly when a key of the batch is nil,
    and ignores its [appID] argument; when [multiValid] has returned nil for
    the batch, it returns one reference for each key, in order, from which
    [protoToKey] gives the key back. *)
Theorem multiKeyToProto_batch (appID_ : string) (key : list (option Key)) :
  (multiKeyToProto appID_ key = Panic <-> In None key)
  /\ (multiValid key = None ->
      exists refs,
        multiKeyToProto appID_ key = Return refs
        /\ length refs = length key
        /\ forall (i : nat) (k : Key),
             key !! i = Some (Some k) ->
             refs !! i = Some (Some (keyToProto k))
             /\ protoToKey (keyToProto k) = (Some k, None)).
Proof.
  unfold multiKeyToProto. split.
  - split.
    + intros H. destruct (In_None_dec key) as [Hin|Hn]; [exact Hin|].
      pose proof (multiKeyToProto_loop_some key 0 [] eq_refl Hn) as E.
      cbn [app] in E. rewrite E in H. discriminate.
    + apply multiKeyToProto_loop_nil.
  - intros Hm. apply multiValid_None, forallb_valid_lookup in Hm.
    destruct Hm as [Hn Hl].
    pose proof (multiKeyToProto_loop_some key 0 [] eq_refl Hn) as E.
    cbn [app] in E. rewrite E. eexists. split; [reflexivity|]. split.
    + apply length_map.
    + intros i k Hk. split.
      * apply (lookup_map (option_map keyToProto) key i (Some k) Hk).
      * apply protoToKey_keyToProto. apply (Hl i (Some k) Hk).
Qed.

Lemma DecodeKey_some_valid (encoded : string) (k : Key) (err : error) :
  DecodeKey encoded = (Some k, err) -> valid (Some k) = true.
Proof.
  unfold DecodeKey.
  destruct (base64.DecodeString _); [|discriminate].
  destruct (pb.Unmarshal _); [|discriminate].
  intros H. apply protoToKey_valid in H. tauto.
Qed.

(** ** JSON *)

Lemma UnmarshalJSON_quoted (k : Key) (m : GoStr.bytes) :
  UnmarshalJSON k (dquote :: m ++ [dquote])
  = match DecodeKey (GoStr.of_bytes m) with
    | (_, Some err) => Return (k, Some err)
    | (Some k2, None) => Return (k2, None)
    | (None, None) => Panic
    end.
Proof.
  unfold UnmarshalJSON. cbn [length nth].
  rewrite length_app. cbn [length].
  replace (S (length m + 1) <? 2)%nat with false by (symmetry; apply Nat.ltb_ge; lia).
  rewrite Ascii.eqb_refl.
  replace (S (length m + 1) - 1)%nat with (S (length m)) by lia. cbn [nth].
  rewrite app_nth2 by lia. rewrite Nat.sub_diag. cbn [nth].
  rewrite Ascii.eqb_refl. cbn [negb orb drop].
  replace (S (length m) - 1)%nat with (length m) by lia.
  rewrite drop_0, take_app_length. reflexivity.
Qed.

(** X15: for a valid key, [MarshalJSON] returns a text from which
    [UnmarshalJSON] sets any receiver to that key and returns no error. *)
Theorem JSON_roundtrip (k : Key) :
  int64_chain k ->
  valid (Some k) = true ->
  exists buf : GoStr.bytes,
    MarshalJSON k = Return buf
    /\ forall k0 : Key, UnmarshalJSON k0 buf = Return (k, None).
Proof.
  intros Hc Hv. destruct (Encode_DecodeKey k Hc Hv) as (enc & He & Hd).
  unfold MarshalJSON. rewrite He. eexists. split; [reflexivity|].
  intros k0. rewrite UnmarshalJSON_quoted, of_bytes_to_bytes, Hd. reflexivity.
Qed.

Lemma JSON_roundtrip_witness :
  exists buf : GoStr.bytes,
    MarshalJSON key_child = Return buf
    /\ forall k0 : Key, UnmarshalJSON k0 buf = Return (key_child, None).
Proof.
  apply (JSON_roundtrip key_child).
  - cbn. unfold int64_min, int64_max. lia.
  - reflexivity.
Defined.

(** X16: a buffer shorter than two bytes, or that does not begin and end
    with a double quote, is refused as a bad JSON key, and the receiver is
    left as it was. *)
Theorem UnmarshalJSON_bad_JSON (k : Key) (buf : GoStr.bytes) :
  (length buf < 2)%nat \/ head buf <> Some dquote \/ last buf <> Some dquote ->
  UnmarshalJSON k buf = Return (k, Some (NewError "datastore: bad JSON key")).
Proof.
  intros H. unfold UnmarshalJSON.
  assert (C : ((length buf <? 2)%nat
               || negb (Ascii.eqb (nth 0 buf zero) dquote)
               || negb (Ascii.eqb (nth (length buf - 1) buf zero) dquote)) = true);
    [|rewrite C; reflexivity].
  destruct (Nat.ltb_spec (length buf) 2) as [Hl|Hl]; [reflexivity|]. cbn [orb].
  destruct H as [H|[H|H]]; [lia| |].
  - destruct buf as [|c buf]; [cbn in Hl; lia|]. cbn [nth head] in *.
    destruct (Ascii.eqb_spec c dquote) as [->|Hc]; [contradiction|reflexivity].
  - rewrite last_lookup in H.
    replace (Init.Nat.pred (length buf)) with (length buf - 1)%nat in H by lia.
    destruct (buf !! (length buf - 1)%nat) as [c|] eqn:E.
    + rewrite (nth_lookup_Some _ _ zero _ E).
      destruct (Ascii.eqb_spec c dquote) as [->|Hc]; [contradiction|].
      apply orb_true_r.
    + apply lookup_ge_None in E. lia.
Qed.

Lemma UnmarshalJSON_bad_JSON_witness :
  UnmarshalJSON key_child (GoStr.to_bytes "agRhcHAx")
  = Return (key_child, Some (NewError "datastore: bad JSON key")).
Proof.
  apply (UnmarshalJSON_bad_JSON key_child (GoStr.to_bytes "agRhcHAx")).
  right. left. cbn. discriminate.
Defined.

(** X17: whatever the buffer, when [UnmarshalJSON] returns an error the
    receiver is left as it was, and when it returns none the receiver is a
    valid key. *)
Theorem UnmarshalJSON_outcome (k k' : Key) (buf : GoStr.bytes) (err : error) :
  UnmarshalJSON k buf = Return (k', err) ->
  (err <> None -> k' = k) /\ (err = None -> valid (Some k') = true).
Proof.
  unfold UnmarshalJSON.
  destruct (_ || _ || _).
  - intros H. inversion H; subst. split; [reflexivity|discriminate].
  - destruct (DecodeKey _) as [[k2|] [e|]] eqn:D; intros H; inversion H; subst.
    + split; [reflexivity|discriminate].
    + split; [intros Hn; contradiction|]. intros _.
      apply (DecodeKey_some_valid _ _ _ D).
    + split; [reflexivity|discriminate].
Qed.

Lemma UnmarshalJSON_outcome_witness :
  (Some (NewError "datastore: bad JSON key") <> None -> key_child = key_child)
  /\ (Some (NewError "datastore: bad JSON key") = None -> valid (Some key_child) = true).
Proof.
  apply (UnmarshalJSON_outcome key_child key_child (GoStr.to_bytes "agRhcHAx")).
  reflexivity.
Defined.

(** X18: [UnmarshalJSON] panics on the quoted encoding of a reference
    without path elements, whatever its application and namespace:
    [DecodeKey] returns a nil key with a nil error, and [*k = *k2]
    dereferences it. *)
Theorem UnmarshalJSON_panic
  (k : Key) (app : string) (ns : option string) (b : GoStr.bytes) :
  pb.Marshal (pb.mkReference (Some app) ns (pb.mkPath [])) = Some b ->
  UnmarshalJSON k
    (dquote
     :: GoStr.to_bytes (GoStr.TrimRight (GoStr.of_bytes (base64.EncodeToString b)) "=")
     ++ [dquote])
  = Panic.
Proof.
  intros Hb. rewrite UnmarshalJSON_quoted, of_bytes_to_bytes.
  rewrite (DecodeKey_empty_path app ns b Hb). reflexivity.
Qed.

Lemma UnmarshalJSON_panic_witness :
  UnmarshalJSON key_child
    (dquote
     :: GoStr.to_bytes
          (GoStr.TrimRight
             (GoStr.of_bytes
                (base64.EncodeToString
                   (proto.encode_fields
                      [proto.Bytes 13 (GoStr.to_bytes "x");
                       proto.Bytes 14 (proto.encode_fields [])]))) "=")
     ++ [dquote])
  = Panic.
Proof.
  apply (UnmarshalJSON_panic key_child "x" None). reflexivity.
Defined.

(** ** The padding of DecodeKey *)

Lemma length_Repeat_pad (n : nat) : String.length (GoStr.Repeat "=" n) = n.
Proof.
  rewrite <- length_to_bytes, to_bytes_Repeat_pad. apply length_replicate.
Qed.

Lemma repad_length (s : string) : (String.length (repad s) mod 4 = 0)%nat.
Proof.
  unfold repad. destruct (Nat.eqb_spec (String.length s mod 4) 0) as [E|E]; cbn [negb].
  - exact E.
  - rewrite string_length_app, length_Repeat_pad.
    pose proof (Nat.div_mod_eq (String.length s) 4) as D.
    pose proof (Nat.mod_upper_bound (String.length s) 4) as U.
    replace (String.length s + (4 - String.length s mod 4))%nat
      with (0 + (String.length s / 4 + 1) * 4)%nat by lia.
    apply Nat.Div0.mod_add.
Qed.

Lemma repad_aligned (s : string) : (String.length s mod 4 = 0)%nat -> repad s = s.
Proof. unfold repad. intros ->. reflexivity. Qed.

(** X19: [DecodeKey] adds the padding that [Encode] stripped: the padded
    text has a length that is a multiple of four, and the padded and the
    stripped form of a text decode to the same result. *)
Theorem DecodeKey_padding (encoded : string) :
  (String.length (repad encoded) mod 4 = 0)%nat
  /\ repad (repad encoded) = repad encoded
  /\ DecodeKey (repad encoded) = DecodeKey encoded.
Proof.
  pose proof (repad_aligned (repad encoded) (repad_length encoded)) as R.
  split; [apply repad_length|]. split; [exact R|].
  unfold DecodeKey. rewrite R. reflexivity.
Qed.

(** ** The builders on backed slices *)

Lemma growslice_full (n : nat) : (S n <= slice.growslice n n (S n))%nat.
Proof.
  unfold slice.growslice. destruct (Nat.eqb_spec n 0) as [->|Hn]; [lia|].
  cbn [slice.grow_loop].
  destruct (Nat.ltb_spec n 1024) as [Hs|Hb].
  - destruct (Nat.ltb_spec (n + n) (S n)); lia.
  - assert (Hq : (1 <= n / 4)%nat) by (apply Nat.div_le_lower_bound; lia).
    destruct (Nat.ltb_spec (n + n / 4) (S n)); lia.
Qed.

Section SliceInvariant.

Context {A : Type} (zero : A).

(** [append] on a backed slice: the result holds the elements of the slice
    and the new one, the slice itself still shows its elements, and every
    backed slice stays backed. *)
Lemma append_backed (h : slice.heap A) (s : slice.t) (x : A) :
  slice_wf h s ->
  let r := slice.append zero h s x in
  slice.elems (snd r) (fst r) = slice.elems h s ++ [x]
  /\ slice.elems (snd r) s = slice.elems h s
  /\ slice.is_nil (fst r) = false
  /\ slice_wf (snd r) (fst r)
  /\ forall s2, slice_wf h s2 -> slice_wf (snd r) s2.
Proof.
  intros [Hle Hp]. cbn zeta. unfold slice.append.
  destruct (Nat.ltb_spec (slice.len s) (slice.cap s)) as [Hlt|Hge].
  - destruct (slice.ptr s) as [p|] eqn:Ep; [|lia].
    destruct Hp as (arr & Harr & Hcap). cbn [fst snd].
    assert (Hl : alter (fun a => <[slice.len s := x]> a) p h !! p
                 = Some (<[slice.len s := x]> arr))
      by (rewrite list_lookup_alter_eq, Harr; reflexivity).
    unfold slice.elems, slice.array. cbn [slice.ptr slice.len]. rewrite Ep, Hl, Harr.
    cbn [default from_option]. unfold id.
    split; [|split; [|split; [reflexivity|split]]].
    + rewrite (take_S_r _ _ x) by (apply list_lookup_insert_eq; lia).
      rewrite take_insert_ge by lia. reflexivity.
    + apply take_insert_ge. lia.
    + split; cbn [slice.len slice.cap slice.ptr]; [lia|].
      exists (<[slice.len s := x]> arr). split; [exact Hl|].
      rewrite length_insert. exact Hcap.
    + intros s2 [Hle2 Hp2]. split; [exact Hle2|].
      destruct (slice.ptr s2) as [p2|]; [|exact Hp2].
      destruct Hp2 as (arr2 & Harr2 & Hcap2).
      destruct (Nat.eq_dec p p2) as [<-|Hne].
      * exists (<[slice.len s := x]> arr). split; [exact Hl|].
        rewrite length_insert. congruence.
      * exists arr2. split; [|exact Hcap2].
        rewrite list_lookup_alter_ne by exact Hne. exact Harr2.
  - assert (Hlen : slice.cap s = slice.len s) by lia.
    cbn [fst snd].
    assert (Hel : length (slice.elems h s) = slice.len s).
    { unfold slice.elems, slice.array. rewrite length_take.
      destruct (slice.ptr s) as [p|].
      - destruct Hp as (arr & -> & Hcap). cbn [default from_option]. unfold id. lia.
      - cbn [length]. lia. }
    assert (Hold : forall k s2, slice_wf h s2 ->
                   slice.elems (h ++ k) s2 = slice.elems h s2 /\ slice_wf (h ++ k) s2).
    { intros k s2 [Hle2 Hp2]. unfold slice.elems, slice.array, slice_wf.
      destruct (slice.ptr s2) as [p2|]; [|tauto].
      destruct Hp2 as (arr2 & Harr2 & Hcap2).
      assert (p2 < length h)%nat by (apply lookup_lt_is_Some; eauto).
      rewrite lookup_app_l by assumption. rewrite Harr2. eauto. }
    split; [|split; [|split; [reflexivity|split]]].
    + unfold slice.elems at 1. unfold slice.array. cbn [slice.ptr slice.len].
      rewrite list_lookup_middle by reflexivity.
      cbn [default from_option]. unfold id.
      rewrite app_assoc. apply take_app_length'. rewrite length_app, Hel. cbn. lia.
    + apply Hold. split; assumption.
    + split; cbn [slice.len slice.cap slice.ptr].
      * rewrite Hlen. apply growslice_full.
      * eexists. split; [apply list_lookup_middle; reflexivity|].
        rewrite !length_app, Hel, length_replicate. cbn [length]. lia.
    + intros s2 H2. apply Hold. exact H2.
Qed.

End SliceInvariant.

(** X20: [Filter] on a query whose slices are backed returns a query with
    the filters of the receiver and the new one after them, and the same
    kind, ancestor and orders; the receiver still shows its own filters and
    orders, and every backed query stays backed. *)
Theorem Filter_appends (st : Store) (q : Query.t) (f : string) (v : Value) :
  Query_wf st q ->
  let r := Query.Filter q f v st in
  Query.filter_elems (snd r) (fst r) = Query.filter_elems st q ++ [queryFilter.mk f v]
  /\ Query.order_elems (snd r) (fst r) = Query.order_elems st q
  /\ Query.kind (fst r) = Query.kind q
  /\ Query.ancestor (fst r) = Query.ancestor q
  /\ Query.filter_elems (snd r) q = Query.filter_elems st q
  /\ Query.order_elems (snd r) q = Query.order_elems st q
  /\ Query_wf (snd r) (fst r)
  /\ forall q2, Query_wf st q2 -> Query_wf (snd r) q2.
Proof.
  intros [Hf Ho]. cbn zeta. unfold Query.Filter, Query.filter_elems, Query.order_elems, Query_wf.
  pose proof (append_backed Query.zero_filter (filters st) (Query.filter q)
                (queryFilter.mk f v) Hf) as (H1 & H2 & _ & H4 & H5).
  cbn zeta in *.
  destruct (slice.append Query.zero_filter (filters st) (Query.filter q) (queryFilter.mk f v))
    as [s1 h1].
  cbn [fst snd filters orders Query.filter Query.order Query.kind Query.ancestor] in *.
  split; [exact H1|]. do 3 (split; [reflexivity|]). split; [exact H2|].
  split; [reflexivity|]. split; [split; assumption|].
  intros q2 [Hf2 Ho2]. split; [apply H5; exact Hf2|exact Ho2].
Qed.

Lemma Filter_appends_witness :
  let q := fst three_filters in
  let st := snd three_filters in
  let r := Query.Filter q "d =" (VInt 4) st in
  Query.filter_elems (snd r) (fst r)
  = Query.filter_elems st q ++ [queryFilter.mk "d =" (VInt 4)]
  /\ Query.order_elems (snd r) (fst r) = Query.order_elems st q
  /\ Query.kind (fst r) = Query.kind q
  /\ Query.ancestor (fst r) = Query.ancestor q
  /\ Query.filter_elems (snd r) q = Query.filter_elems st q
  /\ Query.order_elems (snd r) q = Query.order_elems st q
  /\ Query_wf (snd r) (fst r)
  /\ forall q2, Query_wf st q2 -> Query_wf (snd r) q2.
Proof.
  apply (Filter_appends (snd three_filters) (fst three_filters) "d =" (VInt 4)).
  split.
  - split; [cbn; lia|]. cbn. eexists. split; [reflexivity|]. cbn. lia.
  - split; [cbn; lia|]. reflexivity.
Defined.

(** X21: the same for [Order]. *)
Theorem Order_appends (st : Store) (q : Query.t) (o : string) :
  Query_wf st q ->
  let r := Query.Order q o st in
  Query.order_elems (snd r) (fst r) = Query.order_elems st q ++ [o]
  /\ Query.filter_elems (snd r) (fst r) = Query.filter_elems st q
  /\ Query.kind (fst r) = Query.kind q
  /\ Query.ancestor (fst r) = Query.ancestor q
  /\ Query.order_elems (snd r) q = Query.order_elems st q
  /\ Query.filter_elems (snd r) q = Query.filter_elems st q
  /\ Query_wf (snd r) (fst r)
  /\ forall q2, Query_wf st q2 -> Query_wf (snd r) q2.
Proof.
  intros [Hf Ho]. cbn zeta. unfold Query.Order, Query.filter_elems, Query.order_elems, Query_wf.
  pose proof (append_backed Query.zero_order (orders st) (Query.order q) o Ho)
    as (H1 & H2 & _ & H4 & H5).
  cbn zeta in *.
  destruct (slice.append Query.zero_order (orders st) (Query.order q) o) as [s1 h1].
  cbn [fst snd filters orders Query.filter Query.order Query.kind Query.ancestor] in *.
  split; [exact H1|]. do 3 (split; [reflexivity|]). split; [exact H2|].
  split; [reflexivity|]. split; [split; assumption|].
  intros q2 [Hf2 Ho2]. split; [exact Hf2|apply H5; exact Ho2].
Qed.

Lemma Order_appends_witness :
  let q := fst person_query in
  let st := snd person_query in
  let r := Query.Order q "name" st in
  Query.order_elems (snd r) (fst r) = Query.order_elems st q ++ ["name"]
  /\ Query.filter_elems (snd r) (fst r) = Query.filter_elems st q
  /\ Query.kind (fst r) = Query.kind q
  /\ Query.ancestor (fst r) = Query.ancestor q
  /\ Query.order_elems (snd r) q = Query.order_elems st q
  /\ Query.filter_elems (snd r) q = Query.filter_elems st q
  /\ Query_wf (snd r) (fst r)
  /\ forall q2, Query_wf st q2 -> Query_wf (snd r) q2.
Proof.
  apply (Order_appends (snd person_query) (fst person_query) "name").
  split.
  - split; [cbn; lia|]. cbn. eexists. split; [reflexivity|]. cbn. lia.
  - split; [cbn; lia|]. cbn. eexists. split; [reflexivity|]. cbn. lia.
Defined.

(** ** A chain of filters and its conversion *)

Lemma Filter_step (st : Store) (q : Query.t) (f : queryFilter.t) :
  Query_wf st q ->
  let r := Query.Filter q (queryFilter.filter f) (queryFilter.value f) st in
  Query.filter_elems (snd r) (fst r) = Query.filter_elems st q ++ [f]
  /\ slice.is_nil (Query.filter (fst r)) = false
  /\ Query.kind (fst r) = Query.kind q
  /\ Query.ancestor (fst r) = Query.ancestor q
  /\ Query.order (fst r) = Query.order q
  /\ orders (snd r) = orders st
  /\ Query_wf (snd r) (fst r).
Proof.
  intros [Hf Ho]. cbn zeta. unfold Query.Filter, Query.filter_elems, Query_wf.
  pose proof (append_backed Query.zero_filter (filters st) (Query.filter q)
                (queryFilter.mk (queryFilter.filter f) (queryFilter.value f)) Hf)
    as (H1 & _ & H3 & H4 & _).
  cbn zeta in *.
  destruct (slice.append Query.zero_filter (filters st) (Query.filter q) _) as [s1 h1].
  cbn [fst snd filters orders Query.filter Query.order Query.kind Query.ancestor] in *.
  destruct f as [ft fv]. cbn [queryFilter.filter queryFilter.value] in *.
  split; [exact H1|]. split; [exact H3|]. do 4 (split; [reflexivity|]).
  split; assumption.
Qed.

Lemma Filter_chain_elems (fs : list queryFilter.t) : forall (st : Store) (q : Query.t),
  Query_wf st q ->
  let r := Filter_chain q fs st in
  Query.filter_elems (snd r) (fst r) = Query.filter_elems st q ++ fs
  /\ (fs <> [] -> slice.is_nil (Query.filter (fst r)) = false)
  /\ Query.kind (fst r) = Query.kind q
  /\ Query.ancestor (fst r) = Query.ancestor q
  /\ Query.order (fst r) = Query.order q
  /\ orders (snd r) = orders st.
Proof.
  induction fs as [|f fs IH]; intros st q Hwf; cbn zeta; cbn [Filter_chain].
  - cbn [fst snd]. rewrite app_nil_r. repeat split. intros H. contradiction.
  - pose proof (Filter_step st q f Hwf) as (H1 & H2 & H3 & H4 & H5 & H6 & H7).
    cbn zeta in *.
    destruct (Query.Filter q (queryFilter.filter f) (queryFilter.value f) st) as [q' st'].
    cbn [fst snd] in *.
    destruct (IH st' q' H7) as (I1 & I2 & I3 & I4 & I5 & I6). cbn zeta in *.
    rewrite I1, H1, <- app_assoc. split; [reflexivity|].
    split; [|repeat split; congruence].
    intros _. destruct fs as [|g fs]; [exact H2|]. apply I2. discriminate.
Qed.

(** X22: a query built from [NewQuery] by a chain of [Filter] calls holds
    the filters of the calls in their order, and [toProto] writes one wire
    filter for each, in that order; the conversion returns nil exactly when
    the kind is not empty and every filter converts. *)
Theorem Filter_chain_toProto (kind_ : string) (fs : list queryFilter.t) (dst : pbq.Query) :
  fs <> [] ->
  let r := Filter_chain (Query.NewQuery kind_) fs empty_Store in
  let w := Query.toProto (snd r) (fst r) dst in
  Query.filter_elems (snd r) (fst r) = fs
  /\ pbq.Filter (fst w) = map (fun f => fst (queryFilter.toProto f pbq.zero_Filter)) fs
  /\ pbq.Order (fst w) = pbq.Order dst
  /\ (snd w = None
      <-> kind_ <> ""
          /\ Forall (fun f => snd (queryFilter.toProto f pbq.zero_Filter) = None) fs).
Proof.
  intros Hne. cbn zeta.
  assert (Hwf : Query_wf empty_Store (Query.NewQuery kind_)).
  { split; (split; [cbn; lia|reflexivity]). }
  pose proof (Filter_chain_elems fs empty_Store (Query.NewQuery kind_) Hwf)
    as (H1 & H2 & H3 & _ & H5 & _).
  cbn zeta in *. cbn [app] in H1. specialize (H2 Hne).
  destruct (Filter_chain (Query.NewQuery kind_) fs empty_Store) as [q st].
  cbn [fst snd] in *. rewrite Query_toProto_spec. cbn [fst snd pbq.Filter pbq.Order].
  rewrite H1, H2, H3, H5. cbn [Query.NewQuery Query.kind Query.order slice.is_nil slice.nil slice.ptr].
  split; [reflexivity|]. split; [reflexivity|]. split; [reflexivity|].
  rewrite app_nil_r, as_error_None. split.
  - intros H. apply app_eq_nil in H. destruct H as [Hk Hf].
    split; [|apply filter_errors_nil; exact Hf].
    apply isEmpty_false. destruct (isEmpty kind_); [discriminate|reflexivity].
  - intros [Hk Hf]. apply isEmpty_false in Hk. rewrite Hk. cbn [app].
    apply filter_errors_nil. exact Hf.
Qed.

Lemma Filter_chain_toProto_witness :
  let fs := [queryFilter.mk "age >=" (VInt 18); queryFilter.mk "name =" (VString "x")] in
  let r := Filter_chain (Query.NewQuery "Person") fs empty_Store in
  let w := Query.toProto (snd r) (fst r) pbq.zero_Query in
  Query.filter_elems (snd r) (fst r) = fs
  /\ pbq.Filter (fst w) = map (fun f => fst (queryFilter.toProto f pbq.zero_Filter)) fs
  /\ pbq.Order (fst w) = pbq.Order pbq.zero_Query
  /\ (snd w = None
      <-> "Person" <> ""
          /\ Forall (fun f => snd (queryFilter.toProto f pbq.zero_Filter) = None) fs).
Proof.
  apply (Filter_chain_toProto "Person"
           [queryFilter.mk "age >=" (VInt 18); queryFilter.mk "name =" (VString "x")]
           pbq.zero_Query).
  discriminate.
Defined.

(** ** What parse takes a filter and an order for *)

(** X23: let [t] be the ASCII text of a filter without the white space at
    its ends.  [parse] refuses the filter exactly when [t] has operator
    characters only ([<], [>], [=], space).  Otherwise [t] is a property,
    which ends outside the operator characters, followed by a run of them,
    and [parse] returns that property, and for the operator that run without
    the white space at its ends, with no error. *)
Theorem queryFilter_parse_outcome (q : queryFilter.t) (t : GoStr.bytes) :
  ascii_text (queryFilter.filter q) = true ->
  trimmed (GoStr.to_bytes (queryFilter.filter q)) t ->
  (snd (queryFilter.parse q) <> None <-> forallb operator_char t = true)
  /\ (forallb operator_char t = true ->
      exists msg, queryFilter.parse q = ("", "", Some (NewError msg)))
  /\ (forallb operator_char t = false ->
      exists (property run : GoStr.bytes) (c : ascii),
        t = property ++ run
        /\ last property = Some c /\ operator_char c = false
        /\ forallb operator_char run = true)
  /\ forall (property run : GoStr.bytes) (c : ascii),
       t = property ++ run ->
       last property = Some c -> operator_char c = false ->
       forallb operator_char run = true ->
       exists operator : string,
         queryFilter.parse q = (GoStr.of_bytes property, operator, None)
         /\ trimmed run (GoStr.to_bytes operator).
Proof.
  intros _ Ht.
  assert (Hsplit : forall (property run : GoStr.bytes) (c : ascii),
            t = property ++ run ->
            last property = Some c -> operator_char c = false ->
            forallb operator_char run = true ->
            exists operator : string,
              queryFilter.parse q = (GoStr.of_bytes property, operator, None)
              /\ trimmed run (GoStr.to_bytes operator)).
  { intros property run c -> Hl Hc Hr.
    exists (GoStr.TrimSpace (GoStr.of_bytes run)). split.
    - apply (parse_property_operator q property run c Ht Hl Hc Hr).
    - rewrite <- (to_bytes_of_bytes run) at 1. apply TrimSpace_trimmed. }
  split; [|split; [|split; [|exact Hsplit]]].
  - destruct (forallb operator_char t) eqn:Hc.
    + destruct (parse_no_property q t Ht Hc) as (msg & ->).
      split; [reflexivity|discriminate].
    + destruct (operator_split t Hc) as (property & run & c & E & Hl & Hn & Hr).
      destruct (Hsplit property run c E Hl Hn Hr) as (operator & -> & _).
      split; [intros H; contradiction|discriminate].
  - apply (parse_no_property q t Ht).
  - apply operator_split.
Qed.

Lemma queryFilter_parse_outcome_witness :
  exists operator : string,
    queryFilter.parse (queryFilter.mk " age >= " (VInt 18))
    = (GoStr.of_bytes (GoStr.to_bytes "age"), operator, None)
    /\ trimmed (GoStr.to_bytes " >=") (GoStr.to_bytes operator).
Proof.
  refine (proj2 (proj2 (proj2
    (queryFilter_parse_outcome (queryFilter.mk " age >= " (VInt 18))
       (GoStr.to_bytes "age >=") eq_refl _)))
    (GoStr.to_bytes "age") (GoStr.to_bytes " >=") "e"%char
    eq_refl eq_refl eq_refl eq_refl).
  exists (GoStr.to_bytes " "), (GoStr.to_bytes " ").
  repeat split; intros c [= <-]; reflexivity.
Defined.

Lemma forallb_last (cut : ascii -> bool) (l : GoStr.bytes) (c : ascii) :
  forallb cut l = true -> last l = Some c -> cut c = true.
Proof.
  induction l as [|d l IH]; cbn [forallb]; [intros _ [=]|].
  intros H. apply andb_prop in H. destruct H as [Hd Hl].
  destruct l as [|e l]; [intros [= <-]; exact Hd|].
  rewrite last_cons_cons. apply IH. exact Hl.
Qed.

(** X24: let [t] be the ASCII text of an order without the white space at
    its ends.  [parse] never fails; when [t] begins with [-] the direction is
    [-] and the property is the rest of [t] without the white space at its
    ends, otherwise the direction is [+] and the property is [t].  The
    property is empty exactly when [t] is empty or the lone [-]; then
    [toProto] refuses the order and leaves the destination as it was, and
    otherwise it sets the property and the direction, descending for [-]
    and ascending for [+]. *)
Theorem queryOrder_toProto_outcome
  (o : queryOrder.t) (dst : pbq.Query_Order) (t : GoStr.bytes) :
  ascii_text o = true ->
  trimmed (GoStr.to_bytes o) t ->
  let desc := match head t with Some c => Ascii.eqb c "-"%char | None => false end in
  exists property : string,
    queryOrder.parse o = (property, if desc then "-" else "+", None)
    /\ (if desc then trimmed (tail t) (GoStr.to_bytes property)
        else GoStr.to_bytes property = t)
    /\ (property = "" <-> t = [] \/ t = ["-"%char])
    /\ (property = "" ->
        queryOrder.toProto o dst
        = (dst, Some (NewError "datastore: empty query order property")))
    /\ (property <> "" ->
        queryOrder.toProto o dst
        = (pbq.mkOrder (Some property)
             (Some (if desc then pbq.DESCENDING else pbq.ASCENDING)), None)).
Proof.
  intros _ Ht. cbn zeta.
  assert (Hlast : forall c, last t = Some c -> GoStr.isSpace c = false)
    by (destruct Ht as (l & r & _ & _ & _ & _ & H); exact H).
  apply trimmed_TrimSpace in Ht.
  assert (E : GoStr.TrimSpace o = GoStr.of_bytes t)
    by (apply to_bytes_inj; rewrite to_bytes_of_bytes; exact Ht).
  unfold queryOrder.toProto, queryOrder.parse. rewrite E.
  destruct t as [|c rest].
  - exists "". cbn. repeat split; try reflexivity; try tauto.
  - cbn [head tail]. unfold GoStr.HasPrefix, GoStr.of_bytes.
    cbn [string_of_list_ascii String.prefix].
    destruct (Ascii.eqb_spec c "-"%char) as [->|Hc].
    + destruct (ascii_dec "-" "-") as [_|N]; [|contradiction].
      assert (P : String.prefix "" (string_of_list_ascii rest) = true)
        by (destruct (string_of_list_ascii rest); reflexivity).
      rewrite P. clear P.
      assert (Ef : GoStr.from 1 (String "-" (string_of_list_ascii rest))
                   = GoStr.of_bytes rest).
      { unfold GoStr.from. f_equal.
        change (String "-" (string_of_list_ascii rest))
          with (GoStr.of_bytes ("-"%char :: rest)).
        rewrite to_bytes_of_bytes. reflexivity. }
      rewrite Ef.
      exists (GoStr.TrimSpace (GoStr.of_bytes rest)).
      assert (Hr : trimmed rest (GoStr.to_bytes (GoStr.TrimSpace (GoStr.of_bytes rest))))
        by (rewrite <- (to_bytes_of_bytes rest) at 1; apply TrimSpace_trimmed).
      assert (Hiff : GoStr.TrimSpace (GoStr.of_bytes rest) = "" <-> rest = []).
      { split; [|intros ->; reflexivity]. intros H0. rewrite H0 in Hr.
        destruct Hr as (l & r & Er & Fl & Fr & _). cbn [app GoStr.to_bytes list_ascii_of_string] in Er.
        destruct rest as [|d rest]; [reflexivity|]. exfalso.
        assert (Fa : forallb GoStr.isSpace (d :: rest) = true)
          by (rewrite Er, forallb_app, Fl, Fr; reflexivity).
        destruct (last (d :: rest)) as [e|] eqn:L; [|apply last_None in L; discriminate L].
        pose proof (forallb_last _ _ _ Fa L) as He.
        rewrite (Hlast e) in He; [discriminate|].
        rewrite last_cons_cons. exact L. }
      split; [reflexivity|]. split; [exact Hr|]. split; [|split].
      * rewrite Hiff. split; [intros ->; right; reflexivity|].
        intros [H|H]; [discriminate|]. injection H as ->. reflexivity.
      * intros H. rewrite H. reflexivity.
      * intros H. apply isEmpty_false in H. rewrite H. reflexivity.
    + destruct (ascii_dec "-" c) as [<-|_]; [contradiction|]. cbn match.
      exists (String c (string_of_list_ascii rest)).
      split; [reflexivity|]. split; [|split; [|split]].
      * change (String c (string_of_list_ascii rest)) with (GoStr.of_bytes (c :: rest)).
        apply to_bytes_of_bytes.
      * split; [discriminate|]. intros [H|H]; [discriminate|].
        injection H as ->. contradiction.
      * discriminate.
      * intros _. reflexivity.
Qed.

Lemma queryOrder_toProto_outcome_witness :
  exists property : string,
    queryOrder.parse " - age " = (property, "-", None)
    /\ trimmed (GoStr.to_bytes " age") (GoStr.to_bytes property)
    /\ (property = "" <-> GoStr.to_bytes "- age" = [] \/ GoStr.to_bytes "- age" = ["-"%char])
    /\ (property = "" ->
        queryOrder.toProto " - age " pbq.zero_Order
        = (pbq.zero_Order, Some (NewError "datastore: empty query order property")))
    /\ (property <> "" ->
        queryOrder.toProto " - age " pbq.zero_Order
        = (pbq.mkOrder (Some property) (Some pbq.DESCENDING), None)).
Proof.
  refine (queryOrder_toProto_outcome " - age " pbq.zero_Order
            (GoStr.to_bytes "- age") eq_refl _).
  exists (GoStr.to_bytes " "), (GoStr.to_bytes " ").
  repeat split; intros c [= <-]; reflexivity.
Defined.

(** ** The two conversions into one message *)

(** X25: the conversion of a query writes the kind, the ancestor, the
    filters and the orders only, the conversion of the options the other
    fields only: the message is the same whichever is done first, and the
    error of each does not depend on the message. *)
Theorem toProto_commute (st : Store) (q : Query.t) (o : QueryOptions.t) (dst dst' : pbq.Query) :
  fst (Query.toProto st q (fst (QueryOptions.toProto o dst)))
  = fst (QueryOptions.toProto o (fst (Query.toProto st q dst)))
  /\ snd (Query.toProto st q dst) = snd (Query.toProto st q dst')
  /\ snd (QueryOptions.toProto o dst) = snd (QueryOptions.toProto o dst').
Proof.
  rewrite !Query_toProto_spec, !QueryOptions_toProto_spec. cbn. repeat split.
Qed.

(** ** Eq as a relation *)

(** X26: [Eq] is reflexive, symmetric and transitive on keys, nil included,
    and a nil key is equal to nil only. *)
Theorem Eq_equivalence :
  (forall k : option Key, Eq k k = true)
  /\ (forall k o : option Key, Eq k o = Eq o k)
  /\ (forall a b c : option Key, Eq a b = true -> Eq b c = true -> Eq a c = true)
  /\ (forall k : Key, Eq None (Some k) = false /\ Eq (Some k) None = false).
Proof.
  split; [|split; [|split]].
  - intros k. apply Eq_true. reflexivity.
  - intros k o. destruct (Eq k o) eqn:E1, (Eq o k) eqn:E2; try reflexivity.
    + apply Eq_true in E1. subst. assert (Eq o o = true) by (apply Eq_true; reflexivity).
      congruence.
    + apply Eq_true in E2. subst. assert (Eq k k = true) by (apply Eq_true; reflexivity).
      congruence.
  - intros a b c H1 H2. apply Eq_true in H1, H2. apply Eq_true. congruence.
  - intros k. split; reflexivity.
Qed.

(** ** delta *)

(** X27: on bytes, [delta] is the distance of its arguments: the subtraction
    never wraps around, the result is a byte, the same in both orders, and
    zero for equal arguments only. *)
Theorem delta_distance (x y : Z) :
  0 <= x < 256 -> 0 <= y < 256 ->
  delta x y = Z.abs (x - y)
  /\ 0 <= delta x y < 256
  /\ delta x y = delta y x
  /\ (delta x y = 0 <-> x = y).
Proof.
  intros Hx Hy. unfold delta.
  destruct (Z.geb_spec x y), (Z.geb_spec y x);
    rewrite ?Z.mod_small by lia; lia.
Qed.

Lemma delta_distance_witness :
  delta 3 250 = Z.abs (3 - 250)
  /\ 0 <= delta 3 250 < 256
  /\ delta 3 250 = delta 250 3
  /\ (delta 3 250 = 0 <-> 3 = 250).
Proof. apply (delta_distance 3 250); lia. Defined.

(** ** Texts that are no keys *)

Lemma DecodeString_three_pads (n : nat) : forall (l : GoStr.bytes) (a : ascii),
  length l = (4 * n)%nat ->
  base64.DecodeString (l ++ [a; base64.pad; base64.pad; base64.pad]) = None.
Proof.
  induction n as [|n IH]; intros l a Hl.
  - destruct l; [|discriminate]. cbn [app base64.DecodeString].
    rewrite !Ascii.eqb_refl. unfold base64.quantum.
    destruct (base64.decodeChar a); reflexivity.
  - destruct l as [|x1 [|x2 [|x3 [|x4 l]]]]; cbn [length] in Hl; try lia.
    specialize (IH l a ltac:(lia)).
    change ((x1 :: x2 :: x3 :: x4 :: l) ++ [a; base64.pad; base64.pad; base64.pad])
      with (x1 :: x2 :: x3 :: x4 :: (l ++ [a; base64.pad; base64.pad; base64.pad])).
    destruct (l ++ [a; base64.pad; base64.pad; base64.pad]) as [|y r] eqn:E.
    + destruct l; discriminate.
    + cbn [base64.DecodeString] in *. rewrite IH.
      destruct (base64.quantum x1 x2 x3 x4 4); reflexivity.
Qed.

(** X28: a text without line breaks whose length is one more than a multiple
    of four is never the encoding of a key: the three padding characters
    that [DecodeKey] adds make a quantum that the base64 decoder refuses.
    Line breaks are excluded because releases of [encoding/base64] later
    than this code skip them; the decoder of this code refuses them like
    any other character outside the alphabet. *)
Theorem DecodeKey_length_one_mod_four (encoded : string) :
  forallb (fun c => negb (Ascii.eqb c "010"%char || Ascii.eqb c "013"%char))
          (GoStr.to_bytes encoded) = true ->
  (String.length encoded mod 4 = 1)%nat ->
  DecodeKey encoded = (None, Some CorruptInputError).
Proof.
  intros _ Hm. unfold DecodeKey. rewrite to_bytes_repad. unfold repad_bytes.
  rewrite length_to_bytes, Hm. cbn [Nat.eqb negb Nat.sub replicate].
  destruct (rev_ind_last (GoStr.to_bytes encoded)) as [E|(l & a & E)].
  - rewrite <- length_to_bytes, E in Hm. discriminate.
  - rewrite E, <- app_assoc. cbn [app].
    rewrite (DecodeString_three_pads (length l / 4) l a); [reflexivity|].
    rewrite <- length_to_bytes, E, length_app in Hm. cbn [length] in Hm.
    pose proof (Nat.div_mod_eq (length l) 4) as D.
    pose proof (Nat.div_mod_eq (length l + 1) 4) as D1.
    pose proof (Nat.mod_upper_bound (length l) 4) as U.
    assert (Hz : (length l mod 4 = 0)%nat).
    { assert (Hs : ((length l mod 4 + 1) mod 4 = 1)%nat)
        by (rewrite Nat.Div0.add_mod_idemp_l; exact Hm).
      destruct (length l mod 4)%nat as [|[|[|[|?]]]]; cbn in Hs; try lia; try discriminate. }
    lia.
Qed.

Lemma DecodeKey_length_one_mod_four_witness :
  DecodeKey "agF4c" = (None, Some CorruptInputError).
Proof. apply (DecodeKey_length_one_mod_four "agF4c"); reflexivity. Defined.
